(** * Verification of the binary heap of guia-monticulos/heap/heap.go

    The Go package implements a generic binary heap over a slice
    [elements []T] with a three-way comparator [compare func(a, b T) int],
    plus three derived functions: [NuevoMonticuloMaxDesdeArreglo],
    [EnesimoMaximo] and [CombinarMonticulos].

    The development has two layers.
    - [HeapCore]: the loops [upHeap] and [downHeap] and the heap-order
      invariant, as functions over the contents of the slice (a list).
      Both loops only read and write indices below [len(m.elements)], so
      they are pure functions of that prefix.
    - [HeapStore]: Go slices as headers (backing array, length) over a
      store of backing arrays, so that [append], reslicing, [make] and
      [copy], and the sharing of backing arrays between slices, are
      modelled as the code has them. *)

From Stdlib Require Import ZArith Lia Sorting.Sorted.
From stdpp Require Import base list.

Open Scope nat_scope.

(** Go's integer division of a non-negative int: [parent := (i - 1) / 2]. *)
Definition parent (i : nat) : nat := (i - 1) / 2.

Section HeapCore.
Context {A : Type}.
(** The zero value of [T] ([var element T]). *)
Variable zero : A.
(** The heap's comparator [m.compare]. *)
Variable cmp : A -> A -> Z.

(** [l[i]]: the loops only index inside the slice, where this is the
    element itself. *)
Definition get (l : list A) (i : nat) : A := default zero (l !! i).

(** [l[i], l[j] = l[j], l[i]]: both right-hand sides are read first,
    then [l[i]] and [l[j]] are assigned, left to right. *)
Definition swap (l : list A) (i j : nat) : list A :=
  let a := get l j in
  let b := get l i in
  <[j := b]> (<[i := a]> l).

(** [upHeap]: [for i > 0 { parent := (i-1)/2; if compare(e[i], e[parent]) > 0
    { break }; swap; i = parent }].  Each iteration strictly decreases
    [i], so [i] iterations are enough for the loop to exit. *)
Fixpoint upHeap_loop (fuel : nat) (l : list A) (i : nat) : list A :=
  match fuel with
  | O => l
  | S fuel' =>
      if 0 <? i then
        let p := parent i in
        if (0 <? cmp (get l i) (get l p))%Z then l
        else upHeap_loop fuel' (swap l i p) p
      else l
  end.

Definition upHeap (l : list A) (i : nat) : list A := upHeap_loop i l i.

(** Lines 142-152 of [downHeap]: [smallest := i], then [left] and [right]
    each replace it when they exist and compare [< 0] against it. *)
Definition smallest_child (l : list A) (i : nat) : nat :=
  let left := 2 * i + 1 in
  let right := 2 * i + 2 in
  let smallest := i in
  let smallest :=
    if (left <? length l) && (cmp (get l left) (get l smallest) <? 0)%Z
    then left else smallest in
  if (right <? length l) && (cmp (get l right) (get l smallest) <? 0)%Z
  then right else smallest.

(** [downHeap]: the [for { ... }] loop; [break] when [smallest == i],
    otherwise swap and continue from [smallest].  Each iteration strictly
    increases [i], and the loop exits once [i] has no child, so
    [length l] iterations are enough from [i = 0]. *)
Fixpoint downHeap_loop (fuel : nat) (l : list A) (i : nat) : list A :=
  match fuel with
  | O => l
  | S fuel' =>
      let smallest := smallest_child l i in
      if smallest =? i then l
      else downHeap_loop fuel' (swap l i smallest) smallest
  end.

Definition downHeap (l : list A) (i : nat) : list A :=
  downHeap_loop (length l) l i.

(** The contents of the slice after [Insert]:
    [m.elements = append(m.elements, element); m.upHeap(len(m.elements) - 1)]. *)
Definition insert_elems (l : list A) (x : A) : list A :=
  upHeap (l ++ [x]) (length l).

(** The contents of the slice after a successful [Remove] (size > 0):
    [m.elements[0] = m.elements[m.Size()-1]; m.elements = m.elements[:m.Size()-1];
     m.downHeap(0)]. *)
Definition remove_elems (l : list A) : list A :=
  let n := length l in
  let l1 := <[0 := get l (n - 1)]> l in
  let l2 := take (n - 1) l1 in
  downHeap l2 0.

(** The heap-order invariant, as the spec states it. *)
Definition heap_ok (l : list A) : Prop :=
  forall i c, (c = 2 * i + 1 \/ c = 2 * i + 2) -> c < length l ->
    (cmp (get l i) (get l c) <= 0)%Z.

(** The same invariant as a boolean check, one test per non-root index. *)
Definition heap_okb (l : list A) : bool :=
  forallb (fun c => cmp (get l (parent c)) (get l c) <=? 0)%Z
          (seq 1 (length l - 1)).

(** The sequence [Remove] returns when called until the heap is empty. *)
Fixpoint drain_elems (fuel : nat) (l : list A) : list A :=
  match fuel with
  | O => []
  | S fuel' =>
      match l with
      | [] => []
      | _ => get l 0 :: drain_elems fuel' (remove_elems l)
      end
  end.
End HeapCore.

(** What the spec requires of a comparator: antisymmetric sign and
    transitive [<= 0] (a total preorder; totality is built into [Z]). *)
Record cmp_valid {A} (cmp : A -> A -> Z) : Prop := {
  cmp_antisym : forall a b, (cmp a b < 0)%Z <-> (cmp b a > 0)%Z;
  cmp_trans : forall a b c, (cmp a b <= 0)%Z -> (cmp b c <= 0)%Z -> (cmp a c <= 0)%Z
}.

(** [utils.Compare]: -1 if a < b, 0 if a == b, 1 if a > b (the contract
    written on the [compare] field of [Heap]). *)
Definition Compare (a b : Z) : Z :=
  if (a <? b)%Z then (-1)%Z else if (b <? a)%Z then 1%Z else 0%Z.

(** The comparator of [NewMinHeap]. *)
Definition cmp_min : Z -> Z -> Z := Compare.

(** The comparator of [NewMaxHeap]: [func(a, b T) int { return utils.Compare(b, a) }]. *)
Definition cmp_max : Z -> Z -> Z := fun a b => Compare b a.

(** Errors returned by the package.  [Remove] returns
    [errors.New("heap vacío")] and [EnesimoMaximo] returns
    [errors.New("n debe estar en el rango de 1 a M")]. *)
Inductive HeapError := EmptyContainer | InvalidRank.

(** A slice header (the code only ever slices from offset 0): the
    backing array it points into and its length. *)
Record Slice := mkSlice { s_arr : nat; s_len : nat }.

Section HeapStore.
Context {A : Type}.
Variable zero : A.

(** [type Heap[T] struct { elements []T; compare func(a, b T) int }]. *)
Record Heap := mkHeap { elements : Slice; compare : A -> A -> Z }.

Definition backing (m : list (list A)) (s : Slice) : list A := default [] (m !! s_arr s).

(** What a slice shows: its first [len] cells. *)
Definition view (m : list (list A)) (s : Slice) : list A := take (s_len s) (backing m s).

(** [cap(s)]. *)
Definition cap (m : list (list A)) (s : Slice) : nat := length (backing m s).

(** A fresh backing array. *)
Definition alloc (m : list (list A)) (arr : list A) : list (list A) * nat := (m ++ [arr], length m).

(** In-place writes to the first [length l] cells of the slice's array. *)
Definition write_prefix (m : list (list A)) (s : Slice) (l : list A) : list (list A) :=
  <[s_arr s := l ++ drop (length l) (backing m s)]> m.

(** [m.Size()]: [len(m.elements)]. *)
Definition Size (h : Heap) : nat := s_len (elements h).

(** Capacity of the array [append] allocates when the old one is full
    (the runtime's doubling rule; rounding to allocation size classes
    only adds spare capacity and is left out). *)
Definition grow (oldcap newlen : nat) : nat :=
  if 2 * oldcap <? newlen then newlen
  else if oldcap <? 256 then 2 * oldcap
  else oldcap + (oldcap + 768) / 4.

(** [append(s, x)]: in place when there is room, otherwise into a new
    array holding a copy of the slice. *)
Definition append (m : list (list A)) (s : Slice) (x : A) : list (list A) * Slice :=
  if s_len s <? cap m s then
    (<[s_arr s := <[s_len s := x]> (backing m s)]> m,
     mkSlice (s_arr s) (S (s_len s)))
  else
    let newcap := grow (cap m s) (S (s_len s)) in
    let '(m', a) := alloc m (view m s ++ [x] ++ replicate (newcap - S (s_len s)) zero) in
    (m', mkSlice a (S (s_len s))).

(** [NewGenericHeap(comp)]: [&Heap[T]{compare: comp, elements: make([]T, 0)}]. *)
Definition NewGenericHeap (m : list (list A)) (comp : A -> A -> Z) : list (list A) * Heap :=
  let '(m', a) := alloc m [] in (m', mkHeap (mkSlice a 0) comp).

(** [func (m *Heap[T]) Insert(element T)]. *)
Definition Insert (m : list (list A)) (h : Heap) (x : A) : list (list A) * Heap :=
  let '(m1, s1) := append m (elements h) x in
  let m2 := write_prefix m1 s1 (upHeap zero (compare h) (view m1 s1) (s_len s1 - 1)) in
  (m2, mkHeap s1 (compare h)).

(** [func (m *Heap[T]) Remove() (T, error)]; the result is
    [((element, err), (store, heap))]. *)
Definition Remove (m : list (list A)) (h : Heap) : (A * option HeapError) * (list (list A) * Heap) :=
  let s := elements h in
  if s_len s =? 0 then ((zero, Some EmptyContainer), (m, h))
  else
    let element := get zero (view m s) 0 in
    let m1 := <[s_arr s := <[0 := get zero (backing m s) (s_len s - 1)]> (backing m s)]> m in
    let s1 := mkSlice (s_arr s) (s_len s - 1) in
    let m2 := write_prefix m1 s1 (downHeap zero (compare h) (view m1 s1) 0) in
    ((element, None), (m2, mkHeap s1 (compare h))).

(** The loop [for i := 0; i < n; i++ { maximo, err = copiaHeap.Remove();
    if err != nil { return maximo, err } }; return maximo, nil]. *)
Fixpoint remove_n (k : nat) (m : list (list A)) (h : Heap) (last : A) : (A * option HeapError) * list (list A) :=
  match k with
  | O => ((last, None), m)
  | S k' =>
      let '((x, err), (m', h')) := Remove m h in
      match err with
      | Some e => ((x, Some e), m')
      | None => remove_n k' m' h' x
      end
  end.

(** [EnesimoMaximo(heap, n)]: rank check, then [n] removals on a copy
    ([make([]T, len(heap.elements))] followed by [copy]). *)
Definition EnesimoMaximo (m : list (list A)) (h : Heap) (n : Z) : (A * option HeapError) * list (list A) :=
  if (n <? 1)%Z || (Z.of_nat (Size h) <? n)%Z then ((zero, Some InvalidRank), m)
  else
    let len := s_len (elements h) in
    let '(m1, a) := alloc m (replicate len zero) in
    let m2 := <[a := view m1 (elements h)]> m1 in
    let copia := mkHeap (mkSlice a len) (compare h) in
    remove_n (Z.to_nat n) m2 copia zero.

(** [for _, element := range xs { combinedHeap.Insert(element) }]. *)
Fixpoint insert_all (m : list (list A)) (h : Heap) (xs : list A) : list (list A) * Heap :=
  match xs with
  | [] => (m, h)
  | x :: xs' => let '(m', h') := Insert m h x in insert_all m' h' xs'
  end.

(** Repeated [Remove] until [Size() == 0], collecting the results. *)
Fixpoint drain (fuel : nat) (m : list (list A)) (h : Heap) : list A :=
  match fuel with
  | O => []
  | S fuel' =>
      if Size h =? 0 then []
      else let '((x, _), (m', h')) := Remove m h in x :: drain fuel' m' h'
  end.

(** Operations a caller may issue on a heap. *)
Inductive Op := OpInsert (x : A) | OpRemove.

Fixpoint run (m : list (list A)) (h : Heap) (ops : list Op) : list (list A) * Heap :=
  match ops with
  | [] => (m, h)
  | OpInsert x :: ops' => let '(m', h') := Insert m h x in run m' h' ops'
  | OpRemove :: ops' => let '(_, (m', h')) := Remove m h in run m' h' ops'
  end.

(** A heap value whose slice lies inside an allocated array. *)
Definition wf (m : list (list A)) (h : Heap) : Prop :=
  s_arr (elements h) < length m /\ s_len (elements h) <= cap m (elements h).
End HeapStore.

Arguments mkHeap {A}.

(** [NewMinHeap[T]()]. *)
Definition NewMinHeap (m : list (list Z)) : list (list Z) * Heap (A:=Z) := NewGenericHeap m cmp_min.

(** [NewMaxHeap[T]()]. *)
Definition NewMaxHeap (m : list (list Z)) : list (list Z) * Heap (A:=Z) := NewGenericHeap m cmp_max.

(** [NuevoMonticuloMaxDesdeArreglo(arr)]. *)
Definition NuevoMonticuloMaxDesdeArreglo (m : list (list Z)) (arr : list Z) : list (list Z) * Heap (A:=Z) :=
  let '(m1, h) := NewMaxHeap m in insert_all 0%Z m1 h arr.

(** [CombinarMonticulos(heap1, heap2)].  Each [range] reads the slice
    header once; the loop bodies never write the ranged arrays (see
    [merge_spec]), so reading the contents up front is the same. *)
Definition CombinarMonticulos (m : list (list Z)) (heap1 heap2 : Heap (A:=Z)) : list (list Z) * Heap (A:=Z) :=
  let e1 := view m (elements heap1) in
  let '(m1, hc) :=
    if (1 <? Size heap1) && (0 <? compare heap1 (get 0%Z e1 0) (get 0%Z e1 1))%Z
    then NewMaxHeap m else NewMinHeap m in
  let '(m2, hc) := insert_all 0%Z m1 hc (view m1 (elements heap1)) in
  insert_all 0%Z m2 hc (view m2 (elements heap2)).

(** ** Index arithmetic of the array-as-tree layout *)

Lemma parent_spec c : 0 < c -> c = 2 * parent c + 1 \/ c = 2 * parent c + 2.
Proof.
  intros Hc. unfold parent.
  pose proof (Nat.div_mod (c - 1) 2 ltac:(lia)).
  pose proof (Nat.mod_upper_bound (c - 1) 2 ltac:(lia)).
  lia.
Qed.

Lemma parent_child i : parent (2 * i + 1) = i /\ parent (2 * i + 2) = i.
Proof.
  unfold parent. split.
  - replace (2 * i + 1 - 1) with (i * 2) by lia. apply Nat.div_mul. lia.
  - replace (2 * i + 2 - 1) with (1 + i * 2) by lia.
    rewrite Nat.div_add by lia. reflexivity.
Qed.

Lemma parent_lt c : 0 < c -> parent c < c.
Proof. intros Hc. pose proof (parent_spec c Hc). lia. Qed.

Lemma parent_is_child i c : 0 < c -> parent c = i -> c = 2 * i + 1 \/ c = 2 * i + 2.
Proof. intros Hc <-. apply parent_spec; lia. Qed.

(** Resolve the index tests left by [get_swap]. *)
Ltac dec_simp := repeat (case_decide; try (exfalso; lia)).

Section CoreProofs.
Context {A : Type}.
Variable zero : A.
Variable cmp : A -> A -> Z.
Hypothesis Hcmp : cmp_valid cmp.

(** The invariant with one test per non-root index. *)
Definition heap_par (l : list A) : Prop :=
  forall c, 0 < c < length l -> (cmp (get zero l (parent c)) (get zero l c) <= 0)%Z.

Lemma cmp_refl a : cmp a a = 0%Z.
Proof.
  pose proof (cmp_antisym _ Hcmp a a). destruct (Z.lt_trichotomy (cmp a a) 0); lia.
Qed.

Lemma cmp_flip a b : ~ (cmp a b < 0)%Z -> (cmp b a <= 0)%Z.
Proof. pose proof (cmp_antisym _ Hcmp a b). lia. Qed.

Lemma cmp_flip_lt a b : (cmp a b < 0)%Z -> (cmp b a > 0)%Z.
Proof. apply (cmp_antisym _ Hcmp). Qed.

Lemma cmp_lt_le a b : (cmp a b > 0)%Z -> (cmp b a < 0)%Z.
Proof. apply (cmp_antisym _ Hcmp). Qed.

Lemma heap_ok_par l : heap_ok zero cmp l <-> heap_par l.
Proof.
  split.
  - intros H c Hc. apply (H (parent c)); [apply parent_spec; lia | lia].
  - intros H i c Hic Hc.
    assert (parent c = i) as <- by (destruct Hic; subst; apply parent_child).
    apply H. lia.
Qed.

Lemma length_swap l i j : length (swap zero l i j) = length l.
Proof. unfold swap. by rewrite !length_insert. Qed.

Lemma get_swap l i j k :
  i < length l -> j < length l ->
  get zero (swap zero l i j) k =
    if decide (k = j) then get zero l i else if decide (k = i) then get zero l j else get zero l k.
Proof.
  intros Hi Hj. unfold swap, get.
  case_decide; [subst; rewrite list_lookup_insert_eq; [done|rewrite length_insert; lia]|].
  rewrite list_lookup_insert_ne by done.
  case_decide; [subst; rewrite list_lookup_insert_eq; done|].
  rewrite list_lookup_insert_ne by done. done.
Qed.

Lemma swap_perm l i j : i < length l -> j < length l -> swap zero l i j ≡ₚ l.
Proof.
  intros Hi Hj. unfold swap, get.
  destruct (lookup_lt_is_Some_2 l i Hi) as [x Hx].
  destruct (lookup_lt_is_Some_2 l j Hj) as [y Hy].
  rewrite Hx, Hy. simpl. by apply Permutation_insert_swap.
Qed.

Lemma root_min l : heap_par l -> forall c, c < length l -> (cmp (get zero l 0) (get zero l c) <= 0)%Z.
Proof.
  intros H c. induction c as [c IH] using lt_wf_ind. intros Hc.
  destruct c as [|c'].
  - rewrite cmp_refl. lia.
  - apply (cmp_trans _ Hcmp _ (get zero l (parent (S c')))).
    + apply IH; [apply parent_lt|pose proof (parent_lt (S c'))]; lia.
    + apply H. lia.
Qed.

(** Sift-up invariant: the order holds at every index but [i], and
    the parent of [i] is already in order with [i]'s children. *)
Definition up_inv (l : list A) (i : nat) : Prop :=
  (forall c, 0 < c < length l -> c <> i ->
     (cmp (get zero l (parent c)) (get zero l c) <= 0)%Z) /\
  (0 < i -> forall c, 0 < c < length l -> parent c = i ->
     (cmp (get zero l (parent i)) (get zero l c) <= 0)%Z).

Lemma upHeap_loop_length fuel l i :
  i < length l -> length (upHeap_loop zero cmp fuel l i) = length l.
Proof.
  revert l i. induction fuel as [|fuel IH]; intros l i Hi; simpl; [done|].
  destruct (0 <? i) eqn:Hi0; [|done].
  apply Nat.ltb_lt in Hi0. pose proof (parent_lt i Hi0).
  destruct (0 <? _)%Z; [done|].
  rewrite IH; rewrite ?length_swap; lia.
Qed.

Lemma upHeap_loop_perm fuel l i :
  i < length l -> upHeap_loop zero cmp fuel l i ≡ₚ l.
Proof.
  revert l i. induction fuel as [|fuel IH]; intros l i Hi; simpl; [done|].
  destruct (0 <? i) eqn:Hi0; [|done].
  apply Nat.ltb_lt in Hi0. pose proof (parent_lt i Hi0).
  destruct (0 <? _)%Z; [done|].
  rewrite IH by (rewrite length_swap; lia). apply swap_perm; lia.
Qed.

Lemma upHeap_loop_ok fuel l i :
  i <= fuel -> i < length l -> up_inv l i -> heap_par (upHeap_loop zero cmp fuel l i).
Proof.
  revert l i. induction fuel as [|fuel IH]; intros l i Hf Hi [Ha Hb]; simpl.
  { intros c Hc. apply Ha; lia. }
  destruct (0 <? i) eqn:Hi0.
  2:{ apply Nat.ltb_ge in Hi0. intros c Hc. apply Ha; lia. }
  apply Nat.ltb_lt in Hi0. pose proof (parent_lt i Hi0) as Hpi.
  set (p := parent i) in *.
  destruct (0 <? cmp (get zero l i) (get zero l p))%Z eqn:Hcmp_ip.
  - (* break: [i] is in order with its parent *)
    apply Z.ltb_lt in Hcmp_ip.
    intros c Hc. destruct (decide (c = i)) as [->|Hci]; [|apply Ha; lia].
    assert (Hg : (cmp (get zero l i) (get zero l p) > 0)%Z) by lia.
    apply cmp_lt_le in Hg. fold p. lia.
  - apply Z.ltb_ge in Hcmp_ip.
    apply IH; [lia|rewrite length_swap; lia|].
    split.
    + intros c Hc Hcp. rewrite length_swap in Hc.
      rewrite !get_swap by lia.
      destruct (decide (c = i)) as [->|Hci].
      { fold p. dec_simp. done. }
      dec_simp;
        match goal with
        | Hx : parent c = p |- _ =>
            (* sibling of [i]: now under the old [l[i]] *)
            apply (cmp_trans _ Hcmp _ (get zero l p)); [done|];
            rewrite <- Hx; apply Ha; lia
        | Hx : parent c = i |- _ =>
            (* child of [i]: now under the old parent *)
            apply Hb; lia
        | _ => apply Ha; lia
        end.
    + intros Hp c Hc Hcp. rewrite length_swap in Hc.
      pose proof (parent_lt p Hp).
      assert (Hpp : (cmp (get zero l (parent p)) (get zero l p) <= 0)%Z) by (apply Ha; lia).
      rewrite !get_swap by lia.
      dec_simp.
      * exfalso. match goal with Hx : c = p |- _ => rewrite Hx in Hcp end. lia.
      * done.
      * apply (cmp_trans _ Hcmp _ (get zero l p)); [done|].
        rewrite <- Hcp. apply Ha; lia.
Qed.

Lemma cmp_lt_trans a b c : (cmp a b < 0)%Z -> (cmp b c < 0)%Z -> (cmp a c < 0)%Z.
Proof.
  intros Hab Hbc. destruct (Z_lt_le_dec (cmp a c) 0) as [|Hac]; [done|exfalso].
  assert (Hca : (cmp c a <= 0)%Z) by (apply cmp_flip; lia).
  assert (Hba : (cmp b a <= 0)%Z) by (apply (cmp_trans _ Hcmp _ c); lia).
  apply cmp_flip_lt in Hab. lia.
Qed.

Lemma smallest_child_range l i :
  smallest_child zero cmp l i = i \/ i < smallest_child zero cmp l i < length l.
Proof.
  unfold smallest_child; cbv zeta.
  repeat match goal with
  | |- context [if ?b then _ else _] => destruct b eqn:?
  end; rewrite ?andb_true_iff, ?Nat.ltb_lt in *; naive_solver lia.
Qed.

Lemma smallest_child_spec l i :
  (smallest_child zero cmp l i = i /\
     forall c, 0 < c < length l -> parent c = i ->
       (cmp (get zero l i) (get zero l c) <= 0)%Z) \/
  (let s := smallest_child zero cmp l i in
   i < s < length l /\ parent s = i /\ (cmp (get zero l s) (get zero l i) < 0)%Z /\
   forall c, 0 < c < length l -> parent c = i ->
     (cmp (get zero l s) (get zero l c) <= 0)%Z).
Proof.
  pose proof (parent_child i) as [HL HR].
  assert (Hch : forall c, 0 < c -> parent c = i -> c = 2 * i + 1 \/ c = 2 * i + 2)
    by (intros; by apply parent_is_child).
  unfold smallest_child; cbv zeta.
  destruct ((2 * i + 1 <? length l) && (cmp (get zero l (2 * i + 1)) (get zero l i) <? 0)%Z)
    eqn:E1; rewrite ?andb_true_iff, ?andb_false_iff, ?Nat.ltb_lt, ?Nat.ltb_ge,
      ?Z.ltb_lt, ?Z.ltb_ge in E1.
  - (* [left] replaced [i] *)
    destruct E1 as [E1a E1b].
    destruct ((2 * i + 2 <? length l) &&
              (cmp (get zero l (2 * i + 2)) (get zero l (2 * i + 1)) <? 0)%Z)
      eqn:E2; rewrite ?andb_true_iff, ?andb_false_iff, ?Nat.ltb_lt, ?Nat.ltb_ge,
        ?Z.ltb_lt, ?Z.ltb_ge in E2.
    + destruct E2 as [E2a E2b]. right. repeat split; try lia.
      * by apply (cmp_lt_trans _ (get zero l (2 * i + 1))).
      * intros c Hc Hpc. destruct (Hch c ltac:(lia) Hpc) as [->| ->]; [lia|].
        rewrite cmp_refl. lia.
    + right. repeat split; try lia.
      intros c Hc Hpc. destruct (Hch c ltac:(lia) Hpc) as [->| ->].
      * rewrite cmp_refl. lia.
      * destruct E2 as [E2|E2]; [lia|]. by apply cmp_flip; lia.
  - (* [smallest] is still [i] *)
    destruct ((2 * i + 2 <? length l) &&
              (cmp (get zero l (2 * i + 2)) (get zero l i) <? 0)%Z)
      eqn:E2; rewrite ?andb_true_iff, ?andb_false_iff, ?Nat.ltb_lt, ?Nat.ltb_ge,
        ?Z.ltb_lt, ?Z.ltb_ge in E2.
    + destruct E2 as [E2a E2b]. right. repeat split; try lia.
      intros c Hc Hpc. destruct (Hch c ltac:(lia) Hpc) as [->| ->].
      * destruct E1 as [E1|E1]; [lia|].
        apply (cmp_trans _ Hcmp _ (get zero l i)); [lia|]. apply cmp_flip; lia.
      * rewrite cmp_refl. lia.
    + left. split; [done|].
      intros c Hc Hpc. destruct (Hch c ltac:(lia) Hpc) as [->| ->].
      * destruct E1 as [E1|E1]; [lia|]. apply cmp_flip; lia.
      * destruct E2 as [E2|E2]; [lia|]. apply cmp_flip; lia.
Qed.

(** Sift-down invariant: the order holds below every index but [i],
    and the parent of [i] is already in order with [i]'s children. *)
Definition down_inv (l : list A) (i : nat) : Prop :=
  (forall c, 0 < c < length l -> parent c <> i ->
     (cmp (get zero l (parent c)) (get zero l c) <= 0)%Z) /\
  (0 < i -> forall c, 0 < c < length l -> parent c = i ->
     (cmp (get zero l (parent i)) (get zero l c) <= 0)%Z).

Lemma downHeap_loop_length fuel l i :
  length (downHeap_loop zero cmp fuel l i) = length l.
Proof.
  revert l i. induction fuel as [|fuel IH]; intros l i; simpl; [done|].
  destruct (smallest_child_range l i) as [Hs|Hs1].
  - by rewrite Hs, Nat.eqb_refl.
  - destruct (_ =? i); [done|]. by rewrite IH, length_swap.
Qed.

Lemma downHeap_loop_perm fuel l i :
  downHeap_loop zero cmp fuel l i ≡ₚ l.
Proof.
  revert l i. induction fuel as [|fuel IH]; intros l i; simpl; [done|].
  destruct (smallest_child_range l i) as [Hs|Hs1].
  - by rewrite Hs, Nat.eqb_refl.
  - destruct (_ =? i) eqn:E; [done|]. rewrite IH. apply swap_perm; lia.
Qed.

Lemma downHeap_loop_ok fuel l i :
  length l <= fuel + i -> down_inv l i -> heap_par (downHeap_loop zero cmp fuel l i).
Proof.
  revert l i. induction fuel as [|fuel IH]; intros l i Hf [Ha Hb]; simpl.
  { intros c Hc. pose proof (parent_lt c). apply Ha; lia. }
  destruct (smallest_child_spec l i) as [[Hs Hchild]|(Hs1 & Hs2 & Hs3 & Hs4)].
  - (* [break]: [i] is in order with its children *)
    rewrite Hs, Nat.eqb_refl. intros c Hc.
    destruct (decide (parent c = i)) as [Hpc|Hpc]; [rewrite Hpc; by apply Hchild|].
    by apply Ha.
  - set (s := smallest_child zero cmp l i) in *.
    rewrite (proj2 (Nat.eqb_neq s i)) by lia.
    apply IH; [rewrite length_swap; lia|]. split.
    + intros c Hc Hpc. rewrite length_swap in Hc.
      pose proof (parent_lt c). pose proof (parent_lt i).
      destruct (decide (c = s)) as [->|Hcs].
      { rewrite Hs2, !get_swap by lia. dec_simp. lia. }
      destruct (decide (c = i)) as [->|Hci].
      { rewrite !get_swap by lia. dec_simp. apply Hb; lia. }
      rewrite !get_swap by lia. dec_simp.
      * apply Hs4; lia.
      * apply Ha; lia.
    + intros Hs0 c Hc Hpc. rewrite length_swap in Hc.
      pose proof (parent_lt c).
      rewrite Hs2, !get_swap by lia. dec_simp.
      rewrite <- Hpc. apply Ha; lia.
Qed.

Lemma get_app_l l r k : k < length l -> get zero (l ++ r) k = get zero l k.
Proof. intros Hk. unfold get. by rewrite lookup_app_l. Qed.

Lemma get_take l n k : k < n -> get zero (take n l) k = get zero l k.
Proof. intros Hk. unfold get. by rewrite lookup_take_lt. Qed.

Lemma get_insert_ne l j x k : k <> j -> get zero (<[j := x]> l) k = get zero l k.
Proof. intros Hk. unfold get. by rewrite list_lookup_insert_ne. Qed.

Lemma insert_elems_length l x : length (insert_elems zero cmp l x) = S (length l).
Proof.
  unfold insert_elems, upHeap. rewrite upHeap_loop_length; rewrite length_app; simpl; lia.
Qed.

Lemma insert_elems_perm l x : insert_elems zero cmp l x ≡ₚ l ++ [x].
Proof.
  unfold insert_elems, upHeap. apply upHeap_loop_perm. rewrite length_app. simpl. lia.
Qed.

Lemma insert_elems_ok l x : heap_par l -> heap_par (insert_elems zero cmp l x).
Proof.
  intros H. unfold insert_elems, upHeap.
  apply upHeap_loop_ok; [lia|rewrite length_app; simpl; lia|].
  unfold up_inv. rewrite length_app. simpl. split.
  - intros c Hc Hcl. pose proof (parent_lt c).
    rewrite !get_app_l by lia. apply H. lia.
  - intros Hl c Hc Hpc. pose proof (parent_spec c). lia.
Qed.

Lemma remove_elems_length l : length (remove_elems zero cmp l) = length l - 1.
Proof.
  unfold remove_elems, downHeap. rewrite downHeap_loop_length, length_take, length_insert. lia.
Qed.

Lemma remove_elems_perm l : l <> [] -> get zero l 0 :: remove_elems zero cmp l ≡ₚ l.
Proof.
  intros Hl. unfold remove_elems, downHeap. rewrite downHeap_loop_perm.
  destruct l as [|x r]; [done|]. simpl length.
  replace (S (length r) - 1) with (length r) by lia.
  destruct r as [|y r] using rev_ind; [done|].
  unfold get. simpl.
  rewrite length_app, Nat.add_1_r. simpl.
  rewrite lookup_app_r by lia. rewrite Nat.sub_diag. simpl.
  rewrite take_app_length' by lia.
  apply Permutation_skip. apply Permutation_cons_append.
Qed.

Lemma remove_elems_ok l : heap_par l -> heap_par (remove_elems zero cmp l).
Proof.
  intros H. unfold remove_elems, downHeap.
  apply downHeap_loop_ok; [lia|]. unfold down_inv. rewrite length_take, length_insert. split.
  - intros c Hc Hpc. pose proof (parent_lt c).
    rewrite !get_take by lia. rewrite !get_insert_ne by lia. apply H. lia.
  - lia.
Qed.

Lemma drain_elems_spec n l :
  length l = n -> heap_par l ->
  Sorted (fun a b => (cmp a b <= 0)%Z) (drain_elems zero cmp n l) /\
  drain_elems zero cmp n l ≡ₚ l.
Proof.
  revert l. induction n as [|n IH]; intros l Hn H.
  { destruct l; [|done]. split; [constructor|done]. }
  destruct l as [|x r] eqn:El; [done|]. rewrite <- El in *.
  assert (Hl : l <> []) by (subst; done).
  destruct (IH (remove_elems zero cmp l)) as [Hs Hp];
    [rewrite remove_elems_length; lia|by apply remove_elems_ok|].
  cbn [drain_elems]. rewrite El. rewrite <- El.
  split.
  - constructor; [done|].
    destruct (drain_elems zero cmp n (remove_elems zero cmp l)) as [|y ys] eqn:Ed;
      constructor.
    assert (Hy : y ∈ l).
    { rewrite <- (remove_elems_perm l Hl), <- Hp; rewrite ?Ed.
      apply list_elem_of_further, list_elem_of_here. }
    apply list_elem_of_lookup in Hy as [k Hk].
    replace y with (get zero l k) by (unfold get; by rewrite Hk).
    apply root_min; [done|]. by eapply lookup_lt_Some.
  - rewrite Hp. by apply remove_elems_perm.
Qed.
End CoreProofs.

(** ** Slices over the store *)

Section StoreProofs.
Context {A : Type}.
Variable zero : A.

(** Arrays below [length m] other than [a] are untouched in [m']. *)
Definition frame (m m' : list (list A)) (a : nat) : Prop :=
  forall b, b < length m -> b <> a -> m' !! b = m !! b.

Lemma backing_insert_eq (m : list (list A)) a v s :
  a < length m -> s_arr s = a -> backing (<[a := v]> m) s = v.
Proof. intros H <-. unfold backing. by rewrite list_lookup_insert_eq. Qed.

Lemma view_length (m : list (list A)) h :
  wf m h -> length (view m (elements h)) = s_len (elements h).
Proof. intros [_ Hc]. unfold view, cap in *. rewrite length_take. lia. Qed.

Lemma write_prefix_spec (m : list (list A)) s l :
  s_arr s < length m -> length l = s_len s -> s_len s <= cap m s ->
  view (write_prefix m s l) s = l /\
  cap (write_prefix m s l) s = cap m s /\
  length (write_prefix m s l) = length m /\
  forall b, b <> s_arr s -> write_prefix m s l !! b = m !! b.
Proof.
  intros Ha Hl Hc. unfold write_prefix, view, cap in *.
  rewrite !backing_insert_eq by done. repeat split.
  - by rewrite take_app_length'.
  - rewrite length_app, length_drop. lia.
  - by rewrite length_insert.
  - intros b Hb. by rewrite list_lookup_insert_ne.
Qed.

Lemma take_S_insert (b : list A) n x :
  n < length b -> take (S n) (<[n := x]> b) = take n b ++ [x].
Proof.
  intros Hn. apply list_eq. intros i.
  rewrite lookup_take.
  destruct (decide (i < n)).
  - rewrite decide_True by lia. rewrite list_lookup_insert_ne by lia.
    rewrite lookup_app_l by (rewrite length_take; lia). by rewrite lookup_take_lt.
  - rewrite lookup_app_r by (rewrite length_take; lia). rewrite length_take.
    destruct (decide (i = n)) as [->|].
    + rewrite decide_True by lia. rewrite list_lookup_insert_eq by done.
      by replace (n - n `min` length b) with 0 by lia.
    + rewrite decide_False by lia. rewrite lookup_ge_None_2; [done|simpl; lia].
Qed.

Lemma take_app_cons (v r : list A) x : take (S (length v)) (v ++ x :: r) = v ++ [x].
Proof. induction v as [|y v IH]; simpl; [done|]. by rewrite IH. Qed.

Lemma append_spec (m : list (list A)) s x :
  s_arr s < length m -> s_len s <= cap m s ->
  let '(m1, s1) := append zero m s x in
  view m1 s1 = view m s ++ [x] /\ s_len s1 = S (s_len s) /\
  s_arr s1 < length m1 /\ s_len s1 <= cap m1 s1 /\ length m <= length m1 /\
  frame m m1 (s_arr s) /\ (s_arr s1 = s_arr s \/ s_arr s1 = length m).
Proof.
  intros Ha Hc. unfold append.
  destruct (s_len s <? cap m s) eqn:E; [apply Nat.ltb_lt in E|apply Nat.ltb_ge in E].
  - unfold view, cap in *. simpl. rewrite !backing_insert_eq by done.
    unfold frame. rewrite !length_insert. repeat split; try lia.
    + by apply take_S_insert.
    + intros b Hb Hba. by rewrite list_lookup_insert_ne.
  - simpl. unfold view, cap, backing in *. simpl.
    rewrite lookup_app_r by lia. rewrite Nat.sub_diag. simpl.
    set (v := take (s_len s) (default [] (m !! s_arr s))).
    assert (Hv : length v = s_len s) by (subst v; rewrite length_take; lia).
    unfold frame. rewrite length_app. simpl. repeat split; try lia.
    + rewrite <- Hv. apply take_app_cons.
    + rewrite !length_app. simpl. lia.
    + intros b Hb _. by rewrite lookup_app_l.
Qed.

Lemma Insert_spec (m : list (list A)) h x :
  wf m h ->
  let '(m', h') := Insert zero m h x in
  wf m' h' /\
  view m' (elements h') = insert_elems zero (compare h) (view m (elements h)) x /\
  compare h' = compare h /\ Size h' = S (Size h) /\ length m <= length m' /\
  frame m m' (s_arr (elements h)) /\
  (s_arr (elements h') = s_arr (elements h) \/ s_arr (elements h') = length m).
Proof.
  intros Hwf. pose proof (view_length m h Hwf) as Hvl. destruct Hwf as [Ha Hc].
  unfold Insert.
  pose proof (append_spec m (elements h) x Ha Hc) as Hap.
  destruct (append zero m (elements h) x) as [m1 s1].
  destruct Hap as (Hv & Hl & Ha1 & Hc1 & Hlen & Hfr & Harr).
  set (u := upHeap zero (compare h) (view m1 s1) (s_len s1 - 1)).
  assert (Hlu : length u = s_len s1).
  { subst u. unfold upHeap. rewrite upHeap_loop_length; rewrite Hv, length_app; simpl; lia. }
  destruct (write_prefix_spec m1 s1 u Ha1 Hlu Hc1) as (Hv2 & Hc2 & Hl2 & Hfr2).
  unfold wf, Size. simpl. rewrite Hl2, Hc2, Hv2. repeat split; try lia.
  - subst u. rewrite Hv, Hl. unfold insert_elems. rewrite Hvl. f_equal. lia.
  - intros b Hb Hba. rewrite Hfr2 by (destruct Harr; lia). by apply Hfr.
Qed.

Lemma Remove_spec (m : list (list A)) h :
  wf m h -> 0 < Size h ->
  let '((x, err), (m', h')) := Remove zero m h in
  x = get zero (view m (elements h)) 0 /\ err = None /\ wf m' h' /\
  view m' (elements h') = remove_elems zero (compare h) (view m (elements h)) /\
  compare h' = compare h /\ s_arr (elements h') = s_arr (elements h) /\
  Size h' = Size h - 1 /\ length m' = length m /\
  (forall b, b <> s_arr (elements h) -> m' !! b = m !! b).
Proof.
  intros Hwf Hpos. pose proof (view_length m h Hwf) as Hvl. destruct Hwf as [Ha Hc].
  unfold Remove, Size in *.
  rewrite (proj2 (Nat.eqb_neq _ 0)) by lia.
  set (s := elements h) in *.
  set (y := get zero (backing m s) (s_len s - 1)).
  set (m1 := <[s_arr s := <[0 := y]> (backing m s)]> m).
  set (s1 := mkSlice (s_arr s) (s_len s - 1)).
  assert (Hb1 : backing m1 s1 = <[0 := y]> (backing m s))
    by (subst m1 s1; by apply backing_insert_eq).
  assert (Ha1 : s_arr s1 < length m1) by (subst m1 s1; simpl; by rewrite length_insert).
  assert (Hc1 : s_len s1 <= cap m1 s1)
    by (unfold cap; rewrite Hb1, length_insert; unfold cap in Hc; simpl; lia).
  assert (Hv1 : view m1 s1 = take (s_len s - 1) (<[0 := get zero (view m s) (s_len s - 1)]> (view m s))).
  { unfold view. rewrite Hb1. simpl.
    rewrite get_take by lia. fold y.
    rewrite <- take_insert_lt by lia. rewrite take_take. f_equal. lia. }
  set (u := downHeap zero (compare h) (view m1 s1) 0).
  assert (Hlu : length u = s_len s1).
  { subst u. unfold downHeap. rewrite downHeap_loop_length.
    unfold view. rewrite length_take. unfold cap in Hc1. lia. }
  destruct (write_prefix_spec m1 s1 u Ha1 Hlu Hc1) as (Hv2 & Hc2 & Hl2 & Hfr2).
  unfold wf. simpl. rewrite Hl2, Hc2, Hv2. repeat split; try done; try lia.
  - subst u. rewrite Hv1. unfold remove_elems. rewrite Hvl. done.
  - subst m1. by rewrite length_insert.
  - intros b Hb. rewrite Hfr2 by done. subst m1. by rewrite list_lookup_insert_ne.
Qed.

Lemma NewGenericHeap_spec (m : list (list A)) comp :
  let '(m', h) := NewGenericHeap m comp in
  m' = m ++ [[]] /\ h = mkHeap (mkSlice (length m) 0) comp /\
  wf m' h /\ view m' (elements h) = [] /\ Size h = 0.
Proof.
  simpl. repeat split; unfold wf, cap; simpl; rewrite ?length_app; simpl; lia.
Qed.

Lemma fold_insert_perm cmp (xs l : list A) :
  fold_left (insert_elems zero cmp) xs l ≡ₚ l ++ xs.
Proof.
  revert l. induction xs as [|x xs IH]; intros l; simpl; [by rewrite app_nil_r|].
  rewrite IH, insert_elems_perm. by rewrite <- app_assoc.
Qed.

Lemma fold_insert_ok cmp (xs l : list A) :
  cmp_valid cmp -> heap_par zero cmp l -> heap_par zero cmp (fold_left (insert_elems zero cmp) xs l).
Proof.
  intros Hv. revert l. induction xs as [|x xs IH]; intros l Hl; simpl; [done|].
  apply IH. by apply insert_elems_ok.
Qed.

Lemma insert_all_spec (m : list (list A)) h xs :
  wf m h ->
  let '(m', h') := insert_all zero m h xs in
  wf m' h' /\
  view m' (elements h') = fold_left (insert_elems zero (compare h)) xs (view m (elements h)) /\
  compare h' = compare h /\ Size h' = Size h + length xs /\ length m <= length m' /\
  frame m m' (s_arr (elements h)) /\
  (s_arr (elements h') = s_arr (elements h) \/ length m <= s_arr (elements h')).
Proof.
  revert m h. induction xs as [|x xs IH]; intros m h Hwf; simpl.
  { split; [done|]. repeat split; try done; lia. }
  pose proof (Insert_spec m h x Hwf) as Hi.
  destruct (Insert zero m h x) as [m1 h1].
  destruct Hi as (Hwf1 & Hv1 & Hc1 & Hs1 & Hl1 & Hfr1 & Ha1).
  pose proof (IH m1 h1 Hwf1) as Hr.
  destruct (insert_all zero m1 h1 xs) as [m2 h2].
  destruct Hr as (Hwf2 & Hv2 & Hc2 & Hs2 & Hl2 & Hfr2 & Ha2).
  rewrite Hv2, Hc2, Hc1, Hv1. split; [done|]. repeat split; try done; try lia.
  intros b Hb Hba. rewrite Hfr2 by (destruct Ha1; lia). by apply Hfr1.
Qed.

Lemma drain_spec fuel (m : list (list A)) h :
  wf m h -> drain zero fuel m h = drain_elems zero (compare h) fuel (view m (elements h)).
Proof.
  revert m h. induction fuel as [|fuel IH]; intros m h Hwf; simpl; [done|].
  pose proof (view_length m h Hwf) as Hvl.
  destruct (Size h =? 0) eqn:E.
  - apply Nat.eqb_eq in E. unfold Size in E.
    destruct (view m (elements h)); [done|simpl in Hvl; lia].
  - apply Nat.eqb_neq in E.
    pose proof (Remove_spec m h Hwf ltac:(lia)) as Hr.
    destruct (Remove zero m h) as [[x err] [m' h']].
    destruct Hr as (-> & -> & Hwf' & Hv' & Hc' & _).
    destruct (view m (elements h)) as [|y ys] eqn:Ev; [unfold Size in E; simpl in Hvl; lia|].
    rewrite <- Ev in *. rewrite IH, Hv', Hc' by done. done.
Qed.

Lemma run_spec ops (m : list (list A)) h :
  wf m h -> cmp_valid (compare h) -> heap_par zero (compare h) (view m (elements h)) ->
  let '(m', h') := run zero m h ops in
  wf m' h' /\ compare h' = compare h /\ heap_par zero (compare h) (view m' (elements h')).
Proof.
  revert m h. induction ops as [|op ops IH]; intros m h Hwf Hv Hok; simpl; [done|].
  destruct op as [x|].
  - pose proof (Insert_spec m h x Hwf) as Hi.
    destruct (Insert zero m h x) as [m1 h1].
    destruct Hi as (Hwf1 & Hv1 & Hc1 & _).
    rewrite <- Hc1. apply IH; [done|by rewrite Hc1|].
    rewrite Hv1, Hc1. by apply insert_elems_ok.
  - destruct (decide (Size h = 0)) as [E|E].
    + unfold Remove. unfold Size in E. rewrite E. simpl. by apply IH.
    + pose proof (Remove_spec m h Hwf ltac:(lia)) as Hr.
      destruct (Remove zero m h) as [[x err] [m1 h1]].
      destruct Hr as (_ & _ & Hwf1 & Hv1 & Hc1 & _).
      rewrite <- Hc1. apply IH; [done|by rewrite Hc1|].
      rewrite Hv1, Hc1. by apply remove_elems_ok.
Qed.

(** What every [Remove] does, whatever the store holds. *)
Lemma Remove_shape (m : list (list A)) h :
  let '((x, err), (m', h')) := Remove zero m h in
  s_arr (elements h') = s_arr (elements h) /\ compare h' = compare h /\
  (forall b, b <> s_arr (elements h) -> m' !! b = m !! b) /\
  (err = None <-> 0 < Size h) /\ (0 < Size h -> Size h' = Size h - 1).
Proof.
  unfold Remove, Size. destruct (s_len (elements h) =? 0) eqn:E;
    [apply Nat.eqb_eq in E|apply Nat.eqb_neq in E]; simpl.
  - repeat split; try done; lia.
  - repeat split; try done; try lia.
    intros b Hb. unfold write_prefix. simpl.
    by rewrite !list_lookup_insert_ne.
Qed.

Lemma remove_n_frame k (m : list (list A)) h last :
  forall b, b <> s_arr (elements h) -> (remove_n zero k m h last).2 !! b = m !! b.
Proof.
  revert m h last. induction k as [|k IH]; intros m h last b Hb; simpl; [done|].
  pose proof (Remove_shape m h) as Hr.
  destruct (Remove zero m h) as [[x err] [m' h']].
  destruct Hr as (Ha & _ & Hfr & _).
  destruct err; simpl; [by apply Hfr|].
  rewrite IH by (rewrite Ha; done). by apply Hfr.
Qed.

Lemma remove_n_noerr k (m : list (list A)) h last :
  k <= Size h -> (remove_n zero k m h last).1.2 = None.
Proof.
  revert m h last. induction k as [|k IH]; intros m h last Hk; simpl; [done|].
  pose proof (Remove_shape m h) as Hr.
  destruct (Remove zero m h) as [[x err] [m' h']].
  destruct Hr as (_ & _ & _ & Herr & Hs).
  assert (err = None) as -> by (apply Herr; lia).
  apply IH. rewrite Hs; lia.
Qed.

Lemma remove_n_value k (m : list (list A)) h last :
  wf m h -> 0 < k <= Size h ->
  (remove_n zero k m h last).1.1 =
    get zero (drain_elems zero (compare h) k (view m (elements h))) (k - 1).
Proof.
  revert m h last. induction k as [|k IH]; intros m h last Hwf Hk; [lia|]. simpl.
  pose proof (view_length m h Hwf) as Hvl.
  pose proof (Remove_spec m h Hwf ltac:(lia)) as Hr.
  destruct (Remove zero m h) as [[x err] [m' h']].
  destruct Hr as (-> & -> & Hwf' & Hv' & Hc' & _ & Hs' & _).
  destruct (view m (elements h)) as [|y ys] eqn:Ev; [unfold Size in Hk; simpl in Hvl; lia|].
  rewrite <- Ev in *.
  destruct k as [|k].
  - reflexivity.
  - rewrite IH by (done || lia). rewrite Hv', Hc'. unfold get. simpl.
    by rewrite Nat.sub_0_r.
Qed.

Lemma drain_elems_prefix cmp k n (l : list A) :
  k <= n -> drain_elems zero cmp k l = take k (drain_elems zero cmp n l).
Proof.
  revert n l. induction k as [|k IH]; intros n l Hk; simpl; [done|].
  destruct n as [|n]; [lia|]. simpl.
  destruct l; [done|]. simpl. f_equal. apply IH. lia.
Qed.

Lemma EnesimoMaximo_err (m : list (list A)) h n :
  (EnesimoMaximo zero m h n).1.2 =
    if (n <? 1)%Z || (Z.of_nat (Size h) <? n)%Z then Some InvalidRank else None.
Proof.
  unfold EnesimoMaximo.
  destruct ((n <? 1)%Z || (Z.of_nat (Size h) <? n)%Z) eqn:E; [done|].
  apply orb_false_iff in E as [E1 E2]. apply Z.ltb_ge in E1, E2.
  simpl. apply remove_n_noerr. unfold Size in *. simpl. lia.
Qed.
(** In range, [EnesimoMaximo] runs its removals on a fresh array holding
    a copy of the heap's contents. *)
Lemma EnesimoMaximo_copy (m : list (list A)) h n :
  wf m h -> (1 <= n)%Z -> (n <= Z.of_nat (Size h))%Z ->
  let m2 := <[length m := view m (elements h)]> (m ++ [replicate (Size h) zero]) in
  let copia := mkHeap (mkSlice (length m) (Size h)) (compare h) in
  EnesimoMaximo zero m h n = remove_n zero (Z.to_nat n) m2 copia zero /\
  wf m2 copia /\ view m2 (elements copia) = view m (elements h).
Proof.
  intros Hwf Hn1 Hn2 m2 copia.
  pose proof (view_length m h Hwf) as HL.
  assert (Hv1 : view (m ++ [replicate (Size h) zero]) (elements h) = view m (elements h)).
  { unfold view, backing. rewrite lookup_app_l; [done|apply Hwf]. }
  assert (Hlen : length m2 = S (length m)).
  { unfold m2. rewrite length_insert, length_app. simpl. lia. }
  assert (Hb : backing m2 (elements copia) = view m (elements h)).
  { apply backing_insert_eq; [rewrite length_app; simpl; lia|done]. }
  split; [|split].
  - unfold EnesimoMaximo.
    replace ((n <? 1)%Z || (Z.of_nat (Size h) <? n)%Z) with false
      by (symmetry; apply orb_false_iff; split; apply Z.ltb_ge; lia).
    unfold alloc. simpl. change (s_len (elements h)) with (Size h). rewrite Hv1. reflexivity.
  - unfold wf, cap. rewrite Hb, Hlen. simpl. unfold Size in *. lia.
  - unfold view at 1. rewrite Hb. simpl. unfold Size. rewrite <- HL.
    apply take_ge. lia.
Qed.
End StoreProofs.

(** ** Facts used by several claims *)

Lemma view_frame {A} (m m' : list (list A)) s :
  m' !! s_arr s = m !! s_arr s -> view m' s = view m s.
Proof. intros H. unfold view, backing. by rewrite H. Qed.

Lemma view_app {A} (m extra : list (list A)) s :
  s_arr s < length m -> view (m ++ extra) s = view m s.
Proof. intros H. apply view_frame. by apply lookup_app_l. Qed.

Lemma heap_par_nil {A} (zero : A) cmp : heap_par zero cmp [].
Proof. intros c Hc. simpl in Hc. lia. Qed.

Lemma Sorted_weaken {T} (R R' : T -> T -> Prop) (l : list T) :
  (forall a b, R a b -> R' a b) -> Sorted R l -> Sorted R' l.
Proof.
  intros HR H. induction H as [|a l Hs IH Hd]; constructor; [done|].
  destruct Hd; constructor. by apply HR.
Qed.

(** Inserting [xs] into a fresh heap and removing until it is empty
    returns [xs] sorted by the heap's comparator. *)
Lemma insert_drain {A} (zero : A) cmp m xs :
  cmp_valid cmp ->
  let '(m1, h) := NewGenericHeap m cmp in
  let '(m2, h2) := insert_all zero m1 h xs in
  Sorted (fun a b => (cmp a b <= 0)%Z) (drain zero (Size h2) m2 h2) /\
  drain zero (Size h2) m2 h2 ≡ₚ xs.
Proof.
  intros Hv.
  pose proof (NewGenericHeap_spec m cmp) as Hn.
  destruct (NewGenericHeap m cmp) as [m1 h].
  destruct Hn as (_ & -> & Hwf & Hv0 & _).
  pose proof (insert_all_spec zero m1 _ xs Hwf) as Hi.
  destruct (insert_all zero m1 _ xs) as [m2 h2].
  destruct Hi as (Hwf2 & Hv2 & Hc2 & Hs2 & _).
  rewrite (drain_spec zero) by done.
  rewrite Hv2, Hc2. simpl compare in *. rewrite Hv0.
  pose proof (fold_insert_perm zero cmp xs []) as Hp.
  destruct (drain_elems_spec zero cmp Hv (Size h2) (fold_left (insert_elems zero cmp) xs []))
    as [Hs Hperm].
  - rewrite Hs2, (Permutation_length Hp). unfold Size. simpl. lia.
  - apply fold_insert_ok; [done|apply heap_par_nil].
  - split; [done|]. by rewrite Hperm, Hp.
Qed.

(** The two [range] loops of [CombinarMonticulos], for either constructor. *)
Lemma merge_spec {A} (zero : A) m (h1 h2 : Heap (A:=A)) comp :
  wf m h1 -> wf m h2 ->
  let '(m1, hc) := NewGenericHeap m comp in
  let '(m2, hc) := insert_all zero m1 hc (view m1 (elements h1)) in
  let '(m3, hc) := insert_all zero m2 hc (view m2 (elements h2)) in
  wf m3 hc /\ compare hc = comp /\ length m <= s_arr (elements hc) /\
  view m3 (elements hc) ≡ₚ view m (elements h1) ++ view m (elements h2) /\
  Size hc = Size h1 + Size h2 /\
  (forall b, b < length m -> m3 !! b = m !! b).
Proof.
  intros W1 W2.
  pose proof (NewGenericHeap_spec m comp) as Hn.
  destruct (NewGenericHeap m comp) as [m1 h0].
  destruct Hn as (-> & -> & Wh0 & Vh0 & Sh0).
  rewrite (view_app m [[]] (elements h1)) by apply W1.
  pose proof (insert_all_spec zero _ _ (view m (elements h1)) Wh0) as I1.
  destruct (insert_all zero _ _ (view m (elements h1))) as [m2 hc1].
  destruct I1 as (W2' & V2 & C2 & S2 & L2 & F2 & A2).
  unfold frame in F2. simpl in A2, C2, F2. rewrite length_app in L2, A2, F2. simpl in L2, A2, F2.
  assert (Hf2 : forall b, b < length m -> m2 !! b = m !! b).
  { intros b Hb. rewrite F2 by lia. by apply lookup_app_l. }
  rewrite (view_frame m m2 (elements h2)) by (apply Hf2, W2).
  pose proof (insert_all_spec zero _ _ (view m (elements h2)) W2') as I2.
  destruct (insert_all zero _ _ (view m (elements h2))) as [m3 hc2].
  destruct I2 as (W3 & V3 & C3 & S3 & L3 & F3 & A3). unfold frame in F3.
  pose proof (view_length m h1 W1) as Hl1.
  pose proof (view_length m h2 W2) as Hl2.
  split; [done|]. split; [by rewrite C3, C2|]. split; [lia|]. split; [|split].
  - rewrite V3, V2, C2, Vh0, fold_insert_perm, fold_insert_perm. done.
  - rewrite S3, S2, Sh0. unfold Size in *. lia.
  - intros b Hb. rewrite F3 by lia. by apply Hf2.
Qed.

Lemma Compare_le a b : (Compare a b <= 0)%Z <-> (a <= b)%Z.
Proof. unfold Compare. destruct (Z.ltb_spec a b), (Z.ltb_spec b a); lia. Qed.

Lemma cmp_min_valid : cmp_valid cmp_min.
Proof.
  constructor; unfold cmp_min.
  - intros a b. unfold Compare. destruct (Z.ltb_spec a b), (Z.ltb_spec b a); lia.
  - intros a b c H1 H2. rewrite Compare_le in H1, H2 |- *. lia.
Qed.

Lemma cmp_max_valid : cmp_valid cmp_max.
Proof.
  constructor; unfold cmp_max.
  - intros a b. unfold Compare. destruct (Z.ltb_spec a b), (Z.ltb_spec b a); lia.
  - intros a b c H1 H2. rewrite Compare_le in H1, H2 |- *. lia.
Qed.

(** The boolean check decides the invariant. *)
Lemma heap_okb_sound {A} (zero : A) cmp l : heap_okb zero cmp l = true -> heap_ok zero cmp l.
Proof.
  unfold heap_okb. rewrite forallb_forall. intros H i c Hc Hlt.
  assert (parent c = i) as <- by (destruct Hc as [-> | ->]; apply parent_child).
  apply Z.leb_le, H, in_seq. destruct Hc; lia.
Qed.

(** [Insert] never changes the comparator. *)
Lemma insert_all_compare {A} (zero : A) m h xs :
  compare (insert_all zero m h xs).2 = compare h.
Proof.
  revert m h. induction xs as [|x xs IH]; intros m h; simpl; [done|].
  unfold Insert. destruct (append zero m (elements h) x) as [m1 s1]. by rewrite IH.
Qed.

(** Any sequence of operations on a fresh heap keeps the invariant. *)
Lemma run_heap_ok {A} (zero : A) cmp m ops :
  cmp_valid cmp ->
  let '(m1, h) := NewGenericHeap m cmp in
  let '(m2, h2) := run zero m1 h ops in
  heap_ok zero (compare h2) (view m2 (elements h2)).
Proof.
  intros Hv.
  pose proof (NewGenericHeap_spec m cmp) as Hn.
  destruct (NewGenericHeap m cmp) as [m1 h].
  destruct Hn as (_ & -> & Hwf & Hv0 & _).
  pose proof (run_spec zero ops m1 _ Hwf Hv) as Hr. simpl compare in Hr.
  rewrite Hv0 in Hr. specialize (Hr (heap_par_nil zero cmp)).
  destruct (run zero m1 _ ops) as [m2 h2].
  destruct Hr as (_ & -> & Hp). by apply heap_ok_par.
Qed.

(** ** Properties of the package *)

(** C1: for a heap made by any constructor ([NewGenericHeap] with a
    valid comparator, [NewMinHeap], [NewMaxHeap]), after any sequence of
    [Insert] and [Remove] calls, every index [i] with a child
    [c = 2i+1] or [c = 2i+2] inside the slice satisfies
    [compare(elements[i], elements[c]) <= 0] under the heap's own
    comparator. *)
Theorem heap_order_preserved :
  (forall (A : Type) (zero : A) (cmp : A -> A -> Z), cmp_valid cmp ->
     forall (m : list (list A)) (ops : list (Op (A:=A))),
       let '(m1, h) := NewGenericHeap m cmp in
       let '(m2, h2) := run zero m1 h ops in
       heap_ok zero (compare h2) (view m2 (elements h2))) /\
  (forall (m : list (list Z)) (ops : list (Op (A:=Z))),
       let '(m1, h) := NewMinHeap m in
       let '(m2, h2) := run 0%Z m1 h ops in
       heap_ok 0%Z (compare h2) (view m2 (elements h2))) /\
  (forall (m : list (list Z)) (ops : list (Op (A:=Z))),
       let '(m1, h) := NewMaxHeap m in
       let '(m2, h2) := run 0%Z m1 h ops in
       heap_ok 0%Z (compare h2) (view m2 (elements h2))).
Proof.
  split; [|split].
  - intros A zero cmp Hv m ops. by apply run_heap_ok.
  - intros m ops. apply run_heap_ok, cmp_min_valid.
  - intros m ops. apply run_heap_ok, cmp_max_valid.
Qed.

Lemma heap_order_preserved_witness :
  cmp_valid cmp_max /\
  let '(m1, h) := NewGenericHeap [] cmp_max in
  let '(m2, h2) := run 0%Z m1 h [OpInsert 3%Z; OpInsert 8%Z; OpRemove; OpInsert 5%Z] in
  heap_ok 0%Z (compare h2) (view m2 (elements h2)).
Proof.
  split; [exact cmp_max_valid|].
  exact (proj1 heap_order_preserved Z 0%Z cmp_max cmp_max_valid []
           [OpInsert 3%Z; OpInsert 8%Z; OpRemove; OpInsert 5%Z]).
Defined.

(** C2 (the merge of two max-heaps is not max-ordered): with [heap1]
    built by [NewMaxHeap] and [Insert] 7, 5, 3 and [heap2] by
    [NewMaxHeap] and [Insert] 6, 4, 2, [CombinarMonticulos] returns a
    heap whose elements are [[2; 4; 3; 7; 6; 5]] under the ascending
    comparator: [elements[0] < elements[1]] and
    [compare(elements[0], elements[1]) = -1], so the assertion
    [compare(elements[0], elements[1]) >= 0] of
    [TestCombinarMonticulos_MaxHeapYMaxHeap] fails. *)
Theorem CombinarMonticulos_max_max :
  let '(m1, heap1) := NewMaxHeap [] in
  let '(m2, heap1) := insert_all 0%Z m1 heap1 [7; 5; 3]%Z in
  let '(m3, heap2) := NewMaxHeap m2 in
  let '(m4, heap2) := insert_all 0%Z m3 heap2 [6; 4; 2]%Z in
  let '(m5, hc) := CombinarMonticulos m4 heap1 heap2 in
  let e := view m5 (elements hc) in
  view m4 (elements heap1) = [7; 5; 3]%Z /\ view m4 (elements heap2) = [6; 4; 2]%Z /\
  compare hc = cmp_min /\ e = [2; 4; 3; 7; 6; 5]%Z /\
  (get 0%Z e 0 < get 0%Z e 1)%Z /\ compare hc (get 0%Z e 0) (get 0%Z e 1) = (-1)%Z.
Proof. vm_compute. repeat split; reflexivity. Qed.

(** C3: when the first input's elements satisfy the heap-order invariant
    under its own comparator, the guard
    [heap1.Size() > 1 && heap1.compare(elements[0], elements[1]) > 0] of
    [CombinarMonticulos] is false, and the merged heap carries the
    ascending comparator of [NewMinHeap], whatever the inputs'
    comparators are. *)
Theorem CombinarMonticulos_min_comparator :
  forall (m : list (list Z)) (heap1 heap2 : Heap (A:=Z)),
  wf m heap1 -> heap_ok 0%Z (compare heap1) (view m (elements heap1)) ->
  let e1 := view m (elements heap1) in
  ((1 <? Size heap1) && (0 <? compare heap1 (get 0%Z e1 0) (get 0%Z e1 1))%Z) = false /\
  compare (CombinarMonticulos m heap1 heap2).2 = cmp_min.
Proof.
  intros m heap1 heap2 Hwf Hok e1.
  assert (Hg : ((1 <? Size heap1) && (0 <? compare heap1 (get 0%Z e1 0) (get 0%Z e1 1))%Z) = false).
  { destruct (1 <? Size heap1) eqn:E; simpl; [|done].
    apply Nat.ltb_lt in E. apply Z.ltb_ge. apply (Hok 0 1); [by left|].
    rewrite view_length by done. exact E. }
  split; [exact Hg|].
  unfold CombinarMonticulos. fold e1. rewrite Hg.
  unfold NewMinHeap, NewGenericHeap, alloc. simpl.
  destruct (insert_all 0%Z _ _ _) as [m2 hc] eqn:E1.
  rewrite insert_all_compare.
  pose proof (insert_all_compare 0%Z (m ++ [[]]) (mkHeap (mkSlice (length m) 0) cmp_min)
                (view (m ++ [[]]) (elements heap1))) as Hc.
  rewrite E1 in Hc. exact Hc.
Qed.

Lemma CombinarMonticulos_min_comparator_witness :
  wf [[7; 5; 3; 0]%Z] (mkHeap (mkSlice 0 3) cmp_max) /\
  heap_ok 0%Z cmp_max (view [[7; 5; 3; 0]%Z] (mkSlice 0 3)) /\
  let e1 := view [[7; 5; 3; 0]%Z] (mkSlice 0 3) in
  ((1 <? 3) && (0 <? cmp_max (get 0%Z e1 0) (get 0%Z e1 1))%Z) = false /\
  compare (CombinarMonticulos [[7; 5; 3; 0]%Z] (mkHeap (mkSlice 0 3) cmp_max)
                                                (mkHeap (mkSlice 0 3) cmp_max)).2 = cmp_min.
Proof.
  assert (W : wf [[7; 5; 3; 0]%Z] (mkHeap (mkSlice 0 3) cmp_max)) by (vm_compute; lia).
  assert (O : heap_ok 0%Z cmp_max (view [[7; 5; 3; 0]%Z] (mkSlice 0 3)))
    by (apply heap_okb_sound; vm_compute; reflexivity).
  split; [exact W|]. split; [exact O|].
  exact (CombinarMonticulos_min_comparator [[7; 5; 3; 0]%Z] (mkHeap (mkSlice 0 3) cmp_max)
           (mkHeap (mkSlice 0 3) cmp_max) W O).
Defined.

(** C4: inserting any list [xs] one element at a time and then calling
    [Remove] until the heap is empty returns a permutation of [xs] that
    is ascending for a heap made by [NewMinHeap] and descending for one
    made by [NewMaxHeap]. *)
Theorem Remove_sorted_extraction :
  forall (m : list (list Z)) (xs : list Z),
  (let '(m1, h) := NewMinHeap m in
   let '(m2, h2) := insert_all 0%Z m1 h xs in
   Sorted Z.le (drain 0%Z (Size h2) m2 h2) /\ drain 0%Z (Size h2) m2 h2 ≡ₚ xs) /\
  (let '(m1, h) := NewMaxHeap m in
   let '(m2, h2) := insert_all 0%Z m1 h xs in
   Sorted Z.ge (drain 0%Z (Size h2) m2 h2) /\ drain 0%Z (Size h2) m2 h2 ≡ₚ xs).
Proof.
  intros m xs. split.
  - unfold NewMinHeap.
    pose proof (insert_drain 0%Z cmp_min m xs cmp_min_valid) as H.
    destruct (NewGenericHeap m cmp_min) as [m1 h].
    destruct (insert_all 0%Z m1 h xs) as [m2 h2].
    destruct H as [Hs Hp]. split; [|exact Hp].
    eapply Sorted_weaken; [|exact Hs]. intros a b. unfold cmp_min. by rewrite Compare_le.
  - unfold NewMaxHeap.
    pose proof (insert_drain 0%Z cmp_max m xs cmp_max_valid) as H.
    destruct (NewGenericHeap m cmp_max) as [m1 h].
    destruct (insert_all 0%Z m1 h xs) as [m2 h2].
    destruct H as [Hs Hp]. split; [|exact Hp].
    eapply Sorted_weaken; [|exact Hs]. intros a b. unfold cmp_max. rewrite Compare_le. lia.
Qed.

(** C5: inserting 44, 29, 58, 2, 98, 11, 65, 3, 68, 99 into a heap made
    by [NewMaxHeap] leaves the slice equal to
    [[99; 98; 65; 58; 68; 11; 44; 2; 3; 29]], and the 10 following
    [Remove] calls return 99, 98, 68, 65, 58, 44, 29, 11, 3, 2 in that
    order. *)
Theorem max_heap_round_trip :
  forall m : list (list Z),
  let '(m1, h) := NewMaxHeap m in
  let '(m2, h2) := insert_all 0%Z m1 h [44; 29; 58; 2; 98; 11; 65; 3; 68; 99]%Z in
  view m2 (elements h2) = [99; 98; 65; 58; 68; 11; 44; 2; 3; 29]%Z /\
  Size h2 = 10 /\
  drain 0%Z 10 m2 h2 = [99; 98; 68; 65; 58; 44; 29; 11; 3; 2]%Z.
Proof.
  intros m. unfold NewMaxHeap.
  pose proof (NewGenericHeap_spec m cmp_max) as Hn.
  destruct (NewGenericHeap m cmp_max) as [m1 h].
  destruct Hn as (_ & -> & Hwf & Hv0 & Hs0).
  pose proof (insert_all_spec 0%Z m1 _ [44; 29; 58; 2; 98; 11; 65; 3; 68; 99]%Z Hwf) as Hi.
  destruct (insert_all 0%Z m1 _ _) as [m2 h2].
  destruct Hi as (Hwf2 & Hv2 & Hc2 & Hs2 & _).
  rewrite (drain_spec 0%Z) by done.
  rewrite Hv2, Hc2, Hs2, Hs0. simpl compare. rewrite Hv0.
  split; [|split]; vm_compute; reflexivity.
Qed.

(** C6: [Remove] on a heap with [Size() == 0] returns the zero value and
    [EmptyContainer] and leaves the store and the heap as they were (so
    [Size()] stays 0); on a heap with [Size() > 0] it returns no error. *)
Theorem Remove_empty_error :
  forall (A : Type) (zero : A) (m : list (list A)) (h : Heap (A:=A)),
  let '((x, err), (m', h')) := Remove zero m h in
  if Size h =? 0
  then x = zero /\ err = Some EmptyContainer /\ m' = m /\ h' = h /\ Size h' = 0
  else err = None.
Proof.
  intros A zero m h. unfold Remove, Size. cbv zeta.
  destruct (s_len (elements h) =? 0) eqn:E; [|done].
  apply Nat.eqb_eq in E. auto.
Qed.

(** C7: [EnesimoMaximo] leaves the caller's heap as it was, whether it
    succeeds or fails: the heap value is not returned (so [Size()] is
    unchanged) and every array allocated before the call, in particular
    the one holding the heap's slice, has the same contents after it. *)
Theorem EnesimoMaximo_no_mutation :
  forall (A : Type) (zero : A) (m : list (list A)) (h : Heap (A:=A)) (n : Z),
  wf m h ->
  let m' := (EnesimoMaximo zero m h n).2 in
  view m' (elements h) = view m (elements h) /\
  (forall b, b < length m -> m' !! b = m !! b).
Proof.
  intros A zero m h n Hwf m'.
  assert (Hfr : forall b, b < length m -> m' !! b = m !! b).
  { intros b Hb. unfold m'.
    destruct ((n <? 1)%Z || (Z.of_nat (Size h) <? n)%Z) eqn:E.
    - unfold EnesimoMaximo. by rewrite E.
    - apply orb_false_iff in E as [E1 E2]. apply Z.ltb_ge in E1, E2.
      destruct (EnesimoMaximo_copy zero m h n Hwf ltac:(lia) ltac:(lia)) as (-> & _ & _).
      rewrite remove_n_frame by (simpl; lia).
      rewrite list_lookup_insert_ne by lia. by apply lookup_app_l. }
  split; [|exact Hfr]. apply view_frame, Hfr, Hwf.
Qed.

Lemma EnesimoMaximo_no_mutation_witness :
  wf [[6; 5; 4; 1; 2; 3; 0; 0]%Z] (mkHeap (mkSlice 0 6) cmp_max) /\
  let m' := (EnesimoMaximo 0%Z [[6; 5; 4; 1; 2; 3; 0; 0]%Z] (mkHeap (mkSlice 0 6) cmp_max) 3%Z).2 in
  view m' (mkSlice 0 6) = view [[6; 5; 4; 1; 2; 3; 0; 0]%Z] (mkSlice 0 6) /\
  (forall b, b < 1 -> m' !! b = [[6; 5; 4; 1; 2; 3; 0; 0]%Z] !! b).
Proof.
  assert (W : wf [[6; 5; 4; 1; 2; 3; 0; 0]%Z] (mkHeap (mkSlice 0 6) cmp_max)) by (vm_compute; lia).
  split; [exact W|].
  exact (EnesimoMaximo_no_mutation Z 0%Z [[6; 5; 4; 1; 2; 3; 0; 0]%Z] (mkHeap (mkSlice 0 6) cmp_max) 3%Z W).
Defined.

(** C8: [EnesimoMaximo] fails with [InvalidRank] exactly when [n < 1] or
    [n > Size()], so on an empty heap it fails for every [n >= 1]; for
    [1 <= n <= Size()] on a heap satisfying the invariant it returns, with
    no error, the [n]-th element of the heap's contents sorted by its
    comparator (its priority order).  For the max-heap of 3, 1, 6, 5, 2, 4
    it returns 4 for [n = 3] and fails with [InvalidRank] for [n = 7]. *)
Theorem EnesimoMaximo_rank :
  (forall (A : Type) (zero : A) (m : list (list A)) (h : Heap (A:=A)) (n : Z),
     (EnesimoMaximo zero m h n).1.2 =
       if (n <? 1)%Z || (Z.of_nat (Size h) <? n)%Z then Some InvalidRank else None) /\
  (forall (A : Type) (zero : A) (m : list (list A)) (h : Heap (A:=A)) (n : Z),
     Size h = 0 -> (1 <= n)%Z -> (EnesimoMaximo zero m h n).1.2 = Some InvalidRank) /\
  (forall (A : Type) (zero : A) (m : list (list A)) (h : Heap (A:=A)) (n : Z),
     wf m h -> cmp_valid (compare h) -> heap_ok zero (compare h) (view m (elements h)) ->
     (1 <= n)%Z -> (n <= Z.of_nat (Size h))%Z ->
     exists s, Sorted (fun a b => (compare h a b <= 0)%Z) s /\ s ≡ₚ view m (elements h) /\
       (EnesimoMaximo zero m h n).1 = (get zero s (Z.to_nat n - 1), None)) /\
  (let '(m1, h) := NewMaxHeap [] in
   let '(m2, h) := insert_all 0%Z m1 h [3; 1; 6; 5; 2; 4]%Z in
   (EnesimoMaximo 0%Z m2 h 3).1 = (4%Z, None) /\
   (EnesimoMaximo 0%Z m2 h 7).1.2 = Some InvalidRank).
Proof.
  split; [|split; [|split]].
  - intros A zero m h n. apply EnesimoMaximo_err.
  - intros A zero m h n H0 Hn. rewrite EnesimoMaximo_err, H0.
    replace (Z.of_nat 0 <? n)%Z with true by (symmetry; apply Z.ltb_lt; lia).
    by rewrite orb_true_r.
  - intros A zero m h n Hwf Hv Hok Hn1 Hn2.
    apply heap_ok_par in Hok.
    destruct (EnesimoMaximo_copy zero m h n Hwf Hn1 Hn2) as (Heq & Wc & Vc).
    pose proof (view_length m h Hwf) as HL.
    destruct (drain_elems_spec zero (compare h) Hv (Size h) (view m (elements h)) HL Hok)
      as [Hs Hp].
    exists (drain_elems zero (compare h) (Size h) (view m (elements h))).
    split; [exact Hs|]. split; [exact Hp|].
    rewrite Heq.
    assert (Hk : 0 < Z.to_nat n <= Size h) by lia.
    pose proof (remove_n_value zero (Z.to_nat n) _ _ zero Wc Hk) as Hval.
    lazymatch goal with
    | |- (remove_n _ _ ?m2 ?c _).1 = _ =>
        pose proof (remove_n_noerr zero (Z.to_nat n) m2 c zero (proj2 Hk)) as Herr
    end.
    rewrite Vc in Hval. simpl compare in Hval.
    rewrite (drain_elems_prefix zero (compare h) (Z.to_nat n) (Size h)) in Hval by lia.
    rewrite get_take in Hval by lia.
    destruct (remove_n zero (Z.to_nat n) _ _ zero) as [[x e] m'']. simpl in *. by subst.
  - vm_compute. split; reflexivity.
Qed.

Lemma EnesimoMaximo_rank_witness :
  wf [[6; 5; 4; 1; 2; 3; 0; 0]%Z] (mkHeap (mkSlice 0 6) cmp_max) /\
  heap_ok 0%Z cmp_max (view [[6; 5; 4; 1; 2; 3; 0; 0]%Z] (mkSlice 0 6)) /\
  exists s, Sorted (fun a b => (cmp_max a b <= 0)%Z) s /\
    s ≡ₚ view [[6; 5; 4; 1; 2; 3; 0; 0]%Z] (mkSlice 0 6) /\
    (EnesimoMaximo 0%Z [[6; 5; 4; 1; 2; 3; 0; 0]%Z] (mkHeap (mkSlice 0 6) cmp_max) 3%Z).1 =
      (get 0%Z s (Z.to_nat 3 - 1), None).
Proof.
  assert (W : wf [[6; 5; 4; 1; 2; 3; 0; 0]%Z] (mkHeap (mkSlice 0 6) cmp_max)) by (vm_compute; lia).
  assert (O : heap_ok 0%Z cmp_max (view [[6; 5; 4; 1; 2; 3; 0; 0]%Z] (mkSlice 0 6)))
    by (apply heap_okb_sound; vm_compute; reflexivity).
  split; [exact W|]. split; [exact O|].
  exact (proj1 (proj2 (proj2 EnesimoMaximo_rank)) Z 0%Z [[6; 5; 4; 1; 2; 3; 0; 0]%Z]
           (mkHeap (mkSlice 0 6) cmp_max) 3%Z W cmp_max_valid O
           ltac:(lia) ltac:(vm_compute; discriminate)).
Defined.

(** C9: [CombinarMonticulos] returns a heap in a new array whose contents
    are a permutation of the concatenation of the two inputs' contents
    (the multiset union), whose [Size()] is the sum of the inputs'
    sizes, and the call leaves every previously allocated array, hence
    both inputs' element sequences, unchanged. *)
Theorem CombinarMonticulos_union :
  forall (m : list (list Z)) (heap1 heap2 : Heap (A:=Z)),
  wf m heap1 -> wf m heap2 ->
  let '(m', hc) := CombinarMonticulos m heap1 heap2 in
  view m' (elements hc) ≡ₚ view m (elements heap1) ++ view m (elements heap2) /\
  Size hc = Size heap1 + Size heap2 /\
  view m' (elements heap1) = view m (elements heap1) /\
  view m' (elements heap2) = view m (elements heap2) /\
  length m <= s_arr (elements hc) /\ wf m' hc.
Proof.
  intros m heap1 heap2 W1 W2. unfold CombinarMonticulos. cbv zeta.
  destruct (_ && _);
    [unfold NewMaxHeap; pose proof (merge_spec 0%Z m heap1 heap2 cmp_max W1 W2) as H;
     destruct (NewGenericHeap m cmp_max) as [m1 hc0]
    |unfold NewMinHeap; pose proof (merge_spec 0%Z m heap1 heap2 cmp_min W1 W2) as H;
     destruct (NewGenericHeap m cmp_min) as [m1 hc0]];
    destruct (insert_all 0%Z m1 hc0 (view m1 (elements heap1))) as [m2 hc1];
    destruct (insert_all 0%Z m2 hc1 (view m2 (elements heap2))) as [m3 hc2];
    destruct H as (Wc & _ & Ha & Hp & Hs & Hf);
    (split; [exact Hp|]; split; [exact Hs|]; split; [|split; [|split; [exact Ha|exact Wc]]]);
    apply view_frame, Hf; first [apply W1 | apply W2].
Qed.

Lemma CombinarMonticulos_union_witness :
  wf [[7; 5; 3; 0]; [6; 4; 2; 0]]%Z (mkHeap (mkSlice 0 3) cmp_max) /\
  wf [[7; 5; 3; 0]; [6; 4; 2; 0]]%Z (mkHeap (mkSlice 1 3) cmp_max) /\
  let '(m', hc) := CombinarMonticulos [[7; 5; 3; 0]; [6; 4; 2; 0]]%Z
                     (mkHeap (mkSlice 0 3) cmp_max) (mkHeap (mkSlice 1 3) cmp_max) in
  view m' (elements hc) ≡ₚ [7; 5; 3; 6; 4; 2]%Z /\
  Size hc = 3 + 3 /\
  view m' (mkSlice 0 3) = [7; 5; 3]%Z /\
  view m' (mkSlice 1 3) = [6; 4; 2]%Z /\
  2 <= s_arr (elements hc) /\ wf m' hc.
Proof.
  assert (W1 : wf [[7; 5; 3; 0]; [6; 4; 2; 0]]%Z (mkHeap (mkSlice 0 3) cmp_max)) by (vm_compute; lia).
  assert (W2 : wf [[7; 5; 3; 0]; [6; 4; 2; 0]]%Z (mkHeap (mkSlice 1 3) cmp_max)) by (vm_compute; lia).
  split; [exact W1|]. split; [exact W2|].
  exact (CombinarMonticulos_union [[7; 5; 3; 0]; [6; 4; 2; 0]]%Z
           (mkHeap (mkSlice 0 3) cmp_max) (mkHeap (mkSlice 1 3) cmp_max) W1 W2).
Defined.

(** C10: [NuevoMonticuloMaxDesdeArreglo] on [[3; 1; 6; 5; 2; 4]] returns
    a heap with the comparator of [NewMaxHeap], [Size() == 6], contents
    a permutation of [[1; 2; 3; 4; 5; 6]] and satisfying the heap-order
    invariant (each parent at least as large as its children); on the
    empty list it returns a heap with [Size() == 0]. *)
Theorem NuevoMonticuloMaxDesdeArreglo_build :
  forall m : list (list Z),
  (let '(m', h) := NuevoMonticuloMaxDesdeArreglo m [3; 1; 6; 5; 2; 4]%Z in
   Size h = 6 /\ view m' (elements h) ≡ₚ [1; 2; 3; 4; 5; 6]%Z /\ compare h = cmp_max /\
   heap_ok 0%Z (compare h) (view m' (elements h)) /\
   (forall i c, (c = 2 * i + 1 \/ c = 2 * i + 2) -> c < Size h ->
      (get 0%Z (view m' (elements h)) c <= get 0%Z (view m' (elements h)) i)%Z)) /\
  (let '(m', h) := NuevoMonticuloMaxDesdeArreglo m [] in Size h = 0).
Proof.
  intros m. unfold NuevoMonticuloMaxDesdeArreglo, NewMaxHeap.
  pose proof (NewGenericHeap_spec m cmp_max) as Hn.
  destruct (NewGenericHeap m cmp_max) as [m1 h].
  destruct Hn as (_ & -> & Hwf & Hv0 & Hs0).
  split; [|exact Hs0].
  pose proof (insert_all_spec 0%Z m1 _ [3; 1; 6; 5; 2; 4]%Z Hwf) as Hi.
  destruct (insert_all 0%Z m1 _ _) as [m2 h2].
  destruct Hi as (Hwf2 & Hv2 & Hc2 & Hs2 & _).
  rewrite Hv2, Hc2, Hs2, Hs0. simpl compare. rewrite Hv0.
  assert (E : fold_left (insert_elems 0%Z cmp_max) [3; 1; 6; 5; 2; 4]%Z [] = [6; 5; 4; 1; 2; 3]%Z)
    by (vm_compute; reflexivity).
  rewrite E.
  assert (Hok : heap_ok 0%Z cmp_max [6; 5; 4; 1; 2; 3]%Z)
    by (apply heap_okb_sound; vm_compute; reflexivity).
  split; [reflexivity|]. split; [apply (bool_decide_unpack _); vm_compute; exact I|]. split; [reflexivity|]. split; [exact Hok|].
  intros i c Hic Hc. pose proof (Hok i c Hic Hc) as H. unfold cmp_max in H.
  rewrite Compare_le in H. exact H.
Qed.

(** ** Further properties of the package *)

(** Helpers for counting the elements that outrank a given one. *)

Lemma filter_length_le {T} (f : T -> bool) (l : list T) :
  length (List.filter f l) <= length l.
Proof. induction l as [|a l IH]; simpl; [lia|]. destruct (f a); simpl; lia. Qed.

Lemma filter_all {T} (f : T -> bool) (l : list T) :
  (forall y, In y l -> f y = true) -> List.filter f l = l.
Proof.
  induction l as [|a l IH]; intros H; simpl; [done|].
  rewrite (H a) by (left; done). f_equal. apply IH. intros y Hy. apply H. by right.
Qed.

Lemma filter_none {T} (f : T -> bool) (l : list T) :
  (forall y, In y l -> f y = false) -> List.filter f l = [].
Proof.
  induction l as [|a l IH]; intros H; simpl; [done|].
  rewrite (H a) by (left; done). apply IH. intros y Hy. apply H. by right.
Qed.

Lemma filter_length_perm {T} (f : T -> bool) (l l' : list T) :
  l ≡ₚ l' -> length (List.filter f l) = length (List.filter f l').
Proof.
  induction 1 as [|a l l' _ IH|a b l|l l' l'' _ IH1 _ IH2]; simpl.
  - done.
  - destruct (f a); simpl; lia.
  - destruct (f a), (f b); simpl; lia.
  - lia.
Qed.

Lemma StronglySorted_split {T} (R : T -> T -> Prop) l1 x l2 :
  StronglySorted R (l1 ++ x :: l2) ->
  (forall y, In y l1 -> R y x) /\ (forall y, In y l2 -> R x y).
Proof.
  induction l1 as [|a l1 IH]; simpl; intros H.
  - apply StronglySorted_inv in H as [_ H]. split; [done|].
    intros y Hy. by apply (proj1 (List.Forall_forall _ _) H).
  - apply StronglySorted_inv in H as [H Hf]. destruct (IH H) as [H1 H2].
    split; [|done]. intros y [<-|Hy]; [|by apply H1].
    apply (proj1 (List.Forall_forall _ _) Hf). apply in_or_app. right. by left.
Qed.

(** In a list sorted by a valid comparator, fewer than [k+1] elements
    outrank the element at position [k], and at least [k+1] elements
    are ranked at or above it. *)
Lemma rank_counts {A} (zero : A) (cmp : A -> A -> Z) (s : list A) k :
  cmp_valid cmp -> Sorted (fun a b => (cmp a b <= 0)%Z) s -> k < length s ->
  length (List.filter (fun y => cmp y (get zero s k) <? 0)%Z s) <= k /\
  S k <= length (List.filter (fun y => cmp y (get zero s k) <=? 0)%Z s).
Proof.
  intros Hv Hs Hk.
  apply Sorted_StronglySorted in Hs;
    [|intros a b c; apply (cmp_trans _ Hv)].
  assert (Hsplit : s = take k s ++ get zero s k :: drop (S k) s).
  { unfold get. destruct (lookup_lt_is_Some_2 s k Hk) as [v Hv'].
    rewrite Hv'. simpl. symmetry. by apply take_drop_middle. }
  pose proof (cmp_refl cmp Hv (get zero s k)) as Hrefl.
  set (x := get zero s k) in *.
  rewrite Hsplit in Hs. destruct (StronglySorted_split _ _ _ _ Hs) as [H1 H2].
  assert (Hlt : length (take k s) = k) by (rewrite length_take; lia).
  rewrite Hsplit, !List.filter_app. rewrite !length_app. split.
  - rewrite (filter_none _ (_ :: _)).
    + pose proof (filter_length_le (fun y => cmp y x <? 0)%Z (take k s)). simpl. lia.
    + intros y [<-|Hy]; [rewrite Hrefl; done|].
      apply Z.ltb_ge. pose proof (H2 y Hy) as Hy'.
      pose proof (cmp_antisym _ Hv y x). lia.
  - rewrite filter_all.
    + simpl. rewrite Hrefl. simpl. lia.
    + intros y Hy. apply Z.leb_le. by apply H1.
Qed.

(** In range, [EnesimoMaximo] returns the element at position [n - 1] of
    an arrangement of the heap's contents sorted by its comparator. *)
Lemma EnesimoMaximo_sorted {A} (zero : A) m (h : Heap (A:=A)) n :
  wf m h -> cmp_valid (compare h) -> heap_ok zero (compare h) (view m (elements h)) ->
  (1 <= n)%Z -> (n <= Z.of_nat (Size h))%Z ->
  exists s, Sorted (fun a b => (compare h a b <= 0)%Z) s /\ s ≡ₚ view m (elements h) /\
    (EnesimoMaximo zero m h n).1 = (get zero s (Z.to_nat n - 1), None).
Proof.
  intros Hwf Hv Hok Hn1 Hn2.
  apply heap_ok_par in Hok.
  destruct (EnesimoMaximo_copy zero m h n Hwf Hn1 Hn2) as (Heq & Wc & Vc).
  pose proof (view_length m h Hwf) as HL.
  destruct (drain_elems_spec zero (compare h) Hv (Size h) (view m (elements h)) HL Hok)
    as [Hs Hp].
  exists (drain_elems zero (compare h) (Size h) (view m (elements h))).
  split; [exact Hs|]. split; [exact Hp|].
  rewrite Heq.
  assert (Hk : 0 < Z.to_nat n <= Size h) by lia.
  pose proof (remove_n_value zero (Z.to_nat n) _ _ zero Wc Hk) as Hval.
  lazymatch goal with
  | |- (remove_n _ _ ?m2 ?c _).1 = _ =>
      pose proof (remove_n_noerr zero (Z.to_nat n) m2 c zero (proj2 Hk)) as Herr
  end.
  rewrite Vc in Hval. simpl compare in Hval.
  rewrite (drain_elems_prefix zero (compare h) (Z.to_nat n) (Size h)) in Hval by lia.
  rewrite get_take in Hval by lia.
  destruct (remove_n zero (Z.to_nat n) _ _ zero) as [[x e] m'']. simpl in *. by subst.
Qed.

Lemma elem_of_get {A} (zero : A) (l : list A) i : i < length l -> get zero l i ∈ l.
Proof.
  intros Hi. destruct (lookup_lt_is_Some_2 l i Hi) as [v Hv].
  unfold get. rewrite Hv. simpl. by apply list_elem_of_lookup_2 with i.
Qed.

(** [upHeap] carries an element that no element outranks up to the root:
    ties with a parent do not stop it. *)
Lemma upHeap_loop_top {A} (zero : A) cmp fuel l i x :
  i <= fuel -> i < length l -> get zero l i = x ->
  (forall y, y ∈ l -> (cmp x y <= 0)%Z) ->
  get zero (upHeap_loop zero cmp fuel l i) 0 = x.
Proof.
  revert l i. induction fuel as [|fuel IH]; intros l i Hi Hl Hx Hall; simpl.
  - by replace i with 0 in Hx by lia.
  - destruct (0 <? i) eqn:E; [apply Nat.ltb_lt in E|apply Nat.ltb_ge in E].
    + pose proof (parent_lt i E) as Hp.
      assert (Hc : (cmp (get zero l i) (get zero l (parent i)) <= 0)%Z)
        by (rewrite Hx; apply Hall, elem_of_get; lia).
      destruct (0 <? cmp (get zero l i) (get zero l (parent i)))%Z eqn:E2;
        [apply Z.ltb_lt in E2; lia|].
      apply IH.
      * lia.
      * rewrite length_swap. lia.
      * rewrite get_swap by lia. dec_simp. done.
      * intros y Hy. apply Hall. by rewrite <- (swap_perm zero l i (parent i)) by lia.
    + by replace i with 0 in Hx by lia.
Qed.

(** The merged heap of [CombinarMonticulos], for either constructor,
    satisfies the heap order under its comparator. *)
Lemma merge_heap_par {A} (zero : A) m (h1 h2 : Heap (A:=A)) comp :
  cmp_valid comp ->
  let '(m1, hc) := NewGenericHeap m comp in
  let '(m2, hc) := insert_all zero m1 hc (view m1 (elements h1)) in
  let '(m3, hc) := insert_all zero m2 hc (view m2 (elements h2)) in
  compare hc = comp /\ heap_par zero comp (view m3 (elements hc)).
Proof.
  intros Hv.
  pose proof (NewGenericHeap_spec m comp) as Hn.
  destruct (NewGenericHeap m comp) as [m1 h0].
  destruct Hn as (-> & -> & Wh0 & Vh0 & _).
  pose proof (insert_all_spec zero _ _ (view (m ++ [[]]) (elements h1)) Wh0) as I1.
  destruct (insert_all zero _ _ (view (m ++ [[]]) (elements h1))) as [m2 hc1].
  destruct I1 as (W2 & V2 & C2 & _).
  pose proof (insert_all_spec zero _ _ (view m2 (elements h2)) W2) as I2.
  destruct (insert_all zero _ _ (view m2 (elements h2))) as [m3 hc2].
  destruct I2 as (_ & V3 & C3 & _).
  simpl compare in C2. rewrite C3, C2. split; [done|].
  rewrite V3, V2, C2, Vh0. apply fold_insert_ok; [done|].
  apply fold_insert_ok; [done|apply heap_par_nil].
Qed.

Lemma root_min_elem {A} (zero : A) cmp l y :
  cmp_valid cmp -> heap_par zero cmp l -> y ∈ l -> (cmp (get zero l 0) y <= 0)%Z.
Proof.
  intros Hv Hp Hy. apply list_elem_of_lookup in Hy as [c Hc].
  pose proof (lookup_lt_Some _ _ _ Hc) as Hlt.
  replace y with (get zero l c) by (unfold get; by rewrite Hc).
  by apply root_min.
Qed.

(** [Insert] on a heap whose slice lies in an allocated array: the slice
    grows by one and holds the old contents plus [x], the comparator is
    kept, no other array is written, and the heap order is kept. *)
Theorem Insert_effect :
  forall (A : Type) (zero : A) (m : list (list A)) (h : Heap (A:=A)) (x : A),
  wf m h ->
  let '(m', h') := Insert zero m h x in
  wf m' h' /\ view m' (elements h') ≡ₚ view m (elements h) ++ [x] /\
  Size h' = S (Size h) /\ compare h' = compare h /\
  (forall b, b < length m -> b <> s_arr (elements h) -> m' !! b = m !! b) /\
  (cmp_valid (compare h) -> heap_ok zero (compare h) (view m (elements h)) ->
   heap_ok zero (compare h') (view m' (elements h'))).
Proof.
  intros A zero m h x Hwf.
  pose proof (Insert_spec zero m h x Hwf) as H.
  destruct (Insert zero m h x) as [m' h'].
  destruct H as (W' & V' & C' & S' & _ & F & _).
  split; [done|]. split; [rewrite V'; apply insert_elems_perm|].
  split; [done|]. split; [done|]. split; [exact F|].
  intros Hv Hok. rewrite C', V'. apply heap_ok_par.
  apply insert_elems_ok; [done|]. by apply heap_ok_par.
Qed.

Lemma Insert_effect_witness :
  wf [[6; 5; 4; 1; 2; 3; 0; 0]%Z] (mkHeap (mkSlice 0 6) cmp_max) /\
  let '(m', h') := Insert 0%Z [[6; 5; 4; 1; 2; 3; 0; 0]%Z] (mkHeap (mkSlice 0 6) cmp_max) 7%Z in
  wf m' h' /\ view m' (elements h') ≡ₚ [6; 5; 4; 1; 2; 3; 7]%Z /\
  Size h' = 7 /\ compare h' = cmp_max /\
  (forall b, b < 1 -> b <> 0 -> m' !! b = [[6; 5; 4; 1; 2; 3; 0; 0]%Z] !! b) /\
  (cmp_valid cmp_max -> heap_ok 0%Z cmp_max [6; 5; 4; 1; 2; 3]%Z ->
   heap_ok 0%Z (compare h') (view m' (elements h'))).
Proof.
  assert (W : wf [[6; 5; 4; 1; 2; 3; 0; 0]%Z] (mkHeap (mkSlice 0 6) cmp_max)) by (vm_compute; lia).
  split; [exact W|].
  exact (Insert_effect Z 0%Z [[6; 5; 4; 1; 2; 3; 0; 0]%Z] (mkHeap (mkSlice 0 6) cmp_max) 7%Z W).
Defined.

(** A successful [Remove] on a heap that satisfies the heap order returns
    [elements[0]], which no element outranks; the slice keeps its array,
    shrinks by one, holds the other elements, still satisfies the heap
    order, and no other array is written or allocated. *)
Theorem Remove_effect :
  forall (A : Type) (zero : A) (m : list (list A)) (h : Heap (A:=A)),
  wf m h -> cmp_valid (compare h) -> heap_ok zero (compare h) (view m (elements h)) ->
  0 < Size h ->
  let '((x, err), (m', h')) := Remove zero m h in
  err = None /\ x = get zero (view m (elements h)) 0 /\
  (forall y, y ∈ view m (elements h) -> (compare h x y <= 0)%Z) /\
  x :: view m' (elements h') ≡ₚ view m (elements h) /\ Size h' = Size h - 1 /\
  heap_ok zero (compare h') (view m' (elements h')) /\ wf m' h' /\
  s_arr (elements h') = s_arr (elements h) /\ length m' = length m /\
  (forall b, b <> s_arr (elements h) -> m' !! b = m !! b).
Proof.
  intros A zero m h Hwf Hv Hok Hs.
  pose proof (view_length m h Hwf) as HL.
  apply heap_ok_par in Hok.
  pose proof (Remove_spec zero m h Hwf Hs) as H.
  destruct (Remove zero m h) as [[x err] [m' h']].
  destruct H as (-> & -> & W' & V' & C' & A' & S' & L' & F').
  split; [done|]. split; [done|]. split; [intros y Hy; by apply root_min_elem|].
  split.
  { rewrite V'. apply remove_elems_perm. intros E. rewrite E in HL. simpl in HL.
    unfold Size in Hs. lia. }
  split; [done|]. split; [|done].
  rewrite C', V'. apply heap_ok_par, remove_elems_ok; done.
Qed.

Lemma Remove_effect_witness :
  wf [[6; 5; 4; 1; 2; 3; 0; 0]%Z] (mkHeap (mkSlice 0 6) cmp_max) /\
  cmp_valid cmp_max /\
  heap_ok 0%Z cmp_max (view [[6; 5; 4; 1; 2; 3; 0; 0]%Z] (mkSlice 0 6)) /\
  0 < 6 /\
  let '((x, err), (m', h')) := Remove 0%Z [[6; 5; 4; 1; 2; 3; 0; 0]%Z] (mkHeap (mkSlice 0 6) cmp_max) in
  err = None /\ x = 6%Z /\
  (forall y, y ∈ [6; 5; 4; 1; 2; 3]%Z -> (cmp_max x y <= 0)%Z) /\
  x :: view m' (elements h') ≡ₚ [6; 5; 4; 1; 2; 3]%Z /\ Size h' = 5 /\
  heap_ok 0%Z (compare h') (view m' (elements h')) /\ wf m' h' /\
  s_arr (elements h') = 0 /\ length m' = 1 /\
  (forall b, b <> 0 -> m' !! b = [[6; 5; 4; 1; 2; 3; 0; 0]%Z] !! b).
Proof.
  assert (W : wf [[6; 5; 4; 1; 2; 3; 0; 0]%Z] (mkHeap (mkSlice 0 6) cmp_max)) by (vm_compute; lia).
  assert (O : heap_ok 0%Z cmp_max (view [[6; 5; 4; 1; 2; 3; 0; 0]%Z] (mkSlice 0 6)))
    by (apply heap_okb_sound; vm_compute; reflexivity).
  split; [exact W|]. split; [exact cmp_max_valid|]. split; [exact O|]. split; [lia|].
  exact (Remove_effect Z 0%Z [[6; 5; 4; 1; 2; 3; 0; 0]%Z] (mkHeap (mkSlice 0 6) cmp_max)
           W cmp_max_valid O ltac:(vm_compute; lia)).
Defined.

(** After any sequence of operations, [Size()] has gone up by one per
    [Insert] and down by one per [Remove], a [Remove] on an empty heap
    leaving it at 0. *)
Theorem run_Size :
  forall (A : Type) (zero : A) (m : list (list A)) (h : Heap (A:=A)) (ops : list (Op (A:=A))),
  Size (run zero m h ops).2 =
    fold_left (fun n op => match op with OpInsert _ => S n | OpRemove => n - 1 end) ops (Size h).
Proof.
  intros A zero m h ops. revert m h.
  induction ops as [|op ops IH]; intros m h; simpl; [done|].
  destruct op as [x|].
  - unfold Insert. destruct (append zero m (elements h) x) as [m1 s1] eqn:E.
    rewrite IH. f_equal. unfold Size. simpl.
    unfold append, alloc in E. destruct (_ <? _); inversion E; done.
  - destruct (Remove zero m h) as [[x err] [m' h']] eqn:E.
    rewrite IH. f_equal. unfold Remove in E. cbv zeta in E. unfold Size.
    destruct (s_len (elements h) =? 0) eqn:E0; inversion E; subst; simpl; [|done].
    apply Nat.eqb_eq in E0. lia.
Qed.

(** [EnesimoMaximo(heap, 1)] on a non-empty heap returns [elements[0]]
    with no error, whatever the contents. *)
Theorem EnesimoMaximo_first :
  forall (A : Type) (zero : A) (m : list (list A)) (h : Heap (A:=A)),
  wf m h -> 0 < Size h ->
  (EnesimoMaximo zero m h 1).1 = (get zero (view m (elements h)) 0, None).
Proof.
  intros A zero m h Hwf Hs.
  pose proof (view_length m h Hwf) as HL.
  destruct (EnesimoMaximo_copy zero m h 1 Hwf ltac:(lia) ltac:(lia)) as (-> & Wc & Vc).
  assert (Hk : 0 < Z.to_nat 1 <= Size h) by (simpl; lia).
  pose proof (remove_n_value zero (Z.to_nat 1) _ _ zero Wc Hk) as Hval.
  lazymatch goal with
  | |- (remove_n _ _ ?m2 ?c _).1 = _ =>
      pose proof (remove_n_noerr zero (Z.to_nat 1) m2 c zero (proj2 Hk)) as Herr
  end.
  rewrite Vc in Hval.
  destruct (remove_n zero (Z.to_nat 1) _ _ zero) as [[x e] m'']. simpl in Hval, Herr. subst.
  destruct (view m (elements h)) as [|v vs]; [simpl in HL; unfold Size in Hs; lia|].
  reflexivity.
Qed.

Lemma EnesimoMaximo_first_witness :
  wf [[6; 5; 4; 1; 2; 3; 0; 0]%Z] (mkHeap (mkSlice 0 6) cmp_max) /\ 0 < 6 /\
  (EnesimoMaximo 0%Z [[6; 5; 4; 1; 2; 3; 0; 0]%Z] (mkHeap (mkSlice 0 6) cmp_max) 1).1 =
    (get 0%Z (view [[6; 5; 4; 1; 2; 3; 0; 0]%Z] (mkSlice 0 6)) 0, None).
Proof.
  assert (W : wf [[6; 5; 4; 1; 2; 3; 0; 0]%Z] (mkHeap (mkSlice 0 6) cmp_max)) by (vm_compute; lia).
  split; [exact W|]. split; [lia|].
  exact (EnesimoMaximo_first Z 0%Z [[6; 5; 4; 1; 2; 3; 0; 0]%Z] (mkHeap (mkSlice 0 6) cmp_max)
           W ltac:(vm_compute; lia)).
Defined.

(** For [1 <= n <= Size()] on a heap satisfying the heap order,
    [EnesimoMaximo(heap, n)] returns an element [x] of the heap, with no
    error, such that fewer than [n] elements outrank [x] and at least [n]
    elements rank at or above it.  For a max-heap of integers: fewer than
    [n] elements are larger than [x] and at least [n] are [>= x], so [x]
    is the [n]-th largest. *)
Theorem EnesimoMaximo_rank_counts :
  forall (A : Type) (zero : A) (m : list (list A)) (h : Heap (A:=A)) (n : Z),
  wf m h -> cmp_valid (compare h) -> heap_ok zero (compare h) (view m (elements h)) ->
  (1 <= n)%Z -> (n <= Z.of_nat (Size h))%Z ->
  let '(x, err) := (EnesimoMaximo zero m h n).1 in
  err = None /\ x ∈ view m (elements h) /\
  length (List.filter (fun y => compare h y x <? 0)%Z (view m (elements h))) < Z.to_nat n /\
  Z.to_nat n <= length (List.filter (fun y => compare h y x <=? 0)%Z (view m (elements h))).
Proof.
  intros A zero m h n Hwf Hv Hok Hn1 Hn2.
  destruct (EnesimoMaximo_sorted zero m h n Hwf Hv Hok Hn1 Hn2) as (s & Hs & Hp & ->).
  pose proof (view_length m h Hwf) as HL.
  pose proof (Permutation_length Hp) as Hls.
  assert (Hk : Z.to_nat n - 1 < length s) by (unfold Size in Hn2; lia).
  destruct (rank_counts zero (compare h) s (Z.to_nat n - 1) Hv Hs Hk) as [H1 H2].
  split; [done|]. split; [rewrite <- Hp; by apply elem_of_get|].
  rewrite <- !(filter_length_perm _ _ _ Hp). lia.
Qed.

Lemma EnesimoMaximo_rank_counts_witness :
  wf [[6; 5; 4; 1; 2; 3; 0; 0]%Z] (mkHeap (mkSlice 0 6) cmp_max) /\
  cmp_valid cmp_max /\
  heap_ok 0%Z cmp_max (view [[6; 5; 4; 1; 2; 3; 0; 0]%Z] (mkSlice 0 6)) /\
  let '(x, err) := (EnesimoMaximo 0%Z [[6; 5; 4; 1; 2; 3; 0; 0]%Z] (mkHeap (mkSlice 0 6) cmp_max) 3%Z).1 in
  err = None /\ x ∈ [6; 5; 4; 1; 2; 3]%Z /\
  length (List.filter (fun y => cmp_max y x <? 0)%Z [6; 5; 4; 1; 2; 3]%Z) < 3 /\
  3 <= length (List.filter (fun y => cmp_max y x <=? 0)%Z [6; 5; 4; 1; 2; 3]%Z).
Proof.
  assert (W : wf [[6; 5; 4; 1; 2; 3; 0; 0]%Z] (mkHeap (mkSlice 0 6) cmp_max)) by (vm_compute; lia).
  assert (O : heap_ok 0%Z cmp_max (view [[6; 5; 4; 1; 2; 3; 0; 0]%Z] (mkSlice 0 6)))
    by (apply heap_okb_sound; vm_compute; reflexivity).
  split; [exact W|]. split; [exact cmp_max_valid|]. split; [exact O|].
  exact (EnesimoMaximo_rank_counts Z 0%Z [[6; 5; 4; 1; 2; 3; 0; 0]%Z] (mkHeap (mkSlice 0 6) cmp_max)
           3%Z W cmp_max_valid O ltac:(lia) ltac:(vm_compute; discriminate)).
Defined.

(** Whatever its inputs, [CombinarMonticulos] returns a heap with the
    ascending or the descending comparator whose elements satisfy the
    heap order under it, so [elements[0]] is outranked by no element
    (in particular [compare(elements[0], elements[1]) <= 0], the check of
    the merge tests). *)
Theorem CombinarMonticulos_heap_ok :
  forall (m : list (list Z)) (heap1 heap2 : Heap (A:=Z)),
  let '(m', hc) := CombinarMonticulos m heap1 heap2 in
  (compare hc = cmp_min \/ compare hc = cmp_max) /\
  heap_ok 0%Z (compare hc) (view m' (elements hc)) /\
  (forall y, y ∈ view m' (elements hc) ->
     (compare hc (get 0%Z (view m' (elements hc)) 0) y <= 0)%Z).
Proof.
  intros m heap1 heap2. unfold CombinarMonticulos. cbv zeta.
  destruct (_ && _);
    [unfold NewMaxHeap; pose proof (merge_heap_par 0%Z m heap1 heap2 cmp_max cmp_max_valid) as H;
     pose proof cmp_max_valid as Hv; destruct (NewGenericHeap m cmp_max) as [m1 hc0]
    |unfold NewMinHeap; pose proof (merge_heap_par 0%Z m heap1 heap2 cmp_min cmp_min_valid) as H;
     pose proof cmp_min_valid as Hv; destruct (NewGenericHeap m cmp_min) as [m1 hc0]];
    destruct (insert_all 0%Z m1 hc0 (view m1 (elements heap1))) as [m2 hc1];
    destruct (insert_all 0%Z m2 hc1 (view m2 (elements heap2))) as [m3 hc2];
    destruct H as [Hc Hp]; rewrite Hc;
    (split; [auto|]; split; [by apply heap_ok_par|]);
    intros y Hy; by apply root_min_elem.
Qed.

(** Calling [Remove] until [Size() == 0] on any heap that satisfies the
    heap order returns its elements sorted by its comparator. *)
Theorem drain_sorted :
  forall (A : Type) (zero : A) (m : list (list A)) (h : Heap (A:=A)),
  wf m h -> cmp_valid (compare h) -> heap_ok zero (compare h) (view m (elements h)) ->
  Sorted (fun a b => (compare h a b <= 0)%Z) (drain zero (Size h) m h) /\
  drain zero (Size h) m h ≡ₚ view m (elements h).
Proof.
  intros A zero m h Hwf Hv Hok.
  rewrite (drain_spec zero) by done.
  apply drain_elems_spec; [done|apply view_length, Hwf|by apply heap_ok_par].
Qed.

Lemma drain_sorted_witness :
  wf [[6; 5; 4; 1; 2; 3; 0; 0]%Z] (mkHeap (mkSlice 0 6) cmp_max) /\
  cmp_valid cmp_max /\
  heap_ok 0%Z cmp_max (view [[6; 5; 4; 1; 2; 3; 0; 0]%Z] (mkSlice 0 6)) /\
  Sorted (fun a b => (cmp_max a b <= 0)%Z)
    (drain 0%Z 6 [[6; 5; 4; 1; 2; 3; 0; 0]%Z] (mkHeap (mkSlice 0 6) cmp_max)) /\
  drain 0%Z 6 [[6; 5; 4; 1; 2; 3; 0; 0]%Z] (mkHeap (mkSlice 0 6) cmp_max) ≡ₚ [6; 5; 4; 1; 2; 3]%Z.
Proof.
  assert (W : wf [[6; 5; 4; 1; 2; 3; 0; 0]%Z] (mkHeap (mkSlice 0 6) cmp_max)) by (vm_compute; lia).
  assert (O : heap_ok 0%Z cmp_max (view [[6; 5; 4; 1; 2; 3; 0; 0]%Z] (mkSlice 0 6)))
    by (apply heap_okb_sound; vm_compute; reflexivity).
  split; [exact W|]. split; [exact cmp_max_valid|]. split; [exact O|].
  exact (drain_sorted Z 0%Z [[6; 5; 4; 1; 2; 3; 0; 0]%Z] (mkHeap (mkSlice 0 6) cmp_max)
           W cmp_max_valid O).
Defined.

(** [NuevoMonticuloMaxDesdeArreglo(arr)], for any [arr]: a heap in a new
    array with the comparator of [NewMaxHeap], [Size() == len(arr)],
    contents a permutation of [arr], each parent [>=] its children, and
    every array allocated before the call unchanged. *)
Theorem NuevoMonticuloMaxDesdeArreglo_spec :
  forall (m : list (list Z)) (arr : list Z),
  let '(m', h) := NuevoMonticuloMaxDesdeArreglo m arr in
  wf m' h /\ Size h = length arr /\ view m' (elements h) ≡ₚ arr /\ compare h = cmp_max /\
  heap_ok 0%Z cmp_max (view m' (elements h)) /\
  (forall i c, (c = 2 * i + 1 \/ c = 2 * i + 2) -> c < Size h ->
     (get 0%Z (view m' (elements h)) c <= get 0%Z (view m' (elements h)) i)%Z) /\
  length m <= s_arr (elements h) /\
  (forall b, b < length m -> m' !! b = m !! b).
Proof.
  intros m arr. unfold NuevoMonticuloMaxDesdeArreglo, NewMaxHeap.
  pose proof (NewGenericHeap_spec m cmp_max) as Hn.
  destruct (NewGenericHeap m cmp_max) as [m1 h].
  destruct Hn as (-> & -> & Hwf & Hv0 & Hs0).
  pose proof (insert_all_spec 0%Z _ _ arr Hwf) as Hi.
  destruct (insert_all 0%Z _ _ arr) as [m2 h2].
  destruct Hi as (Hwf2 & Hv2 & Hc2 & Hs2 & _ & F & Ha).
  unfold frame in F. simpl compare in Hc2. simpl in Ha. rewrite length_app in F, Ha. simpl in F, Ha.
  assert (Hok : heap_ok 0%Z cmp_max (view m2 (elements h2))).
  { apply heap_ok_par. rewrite Hv2. simpl compare. rewrite Hv0. apply fold_insert_ok; [apply cmp_max_valid|apply heap_par_nil]. }
  split; [done|]. split; [rewrite Hs2, Hs0; done|].
  split; [rewrite Hv2; simpl compare; rewrite Hv0, fold_insert_perm; done|].
  split; [done|]. split; [done|]. split.
  - intros i c Hic Hc. unfold Size in Hc. rewrite <- (view_length m2 h2 Hwf2) in Hc.
    pose proof (Hok i c Hic Hc) as H. unfold cmp_max in H. by rewrite Compare_le in H.
  - split; [lia|]. intros b Hb. rewrite F by lia. by apply lookup_app_l.
Qed.

(** An [Insert]ed element that no current element outranks (ties
    included) ends at [elements[0]]: [upHeap] only stops on a parent that
    strictly outranks it.  For a min-heap of integers, inserting a value
    [<=] all current values puts it at the root. *)
Theorem Insert_top_to_root :
  forall (A : Type) (zero : A) (m : list (list A)) (h : Heap (A:=A)) (x : A),
  wf m h -> cmp_valid (compare h) ->
  (forall y, y ∈ view m (elements h) -> (compare h x y <= 0)%Z) ->
  let '(m', h') := Insert zero m h x in
  get zero (view m' (elements h')) 0 = x.
Proof.
  intros A zero m h x Hwf Hv Hall.
  pose proof (Insert_spec zero m h x Hwf) as H.
  destruct (Insert zero m h x) as [m' h'].
  destruct H as (_ & -> & _).
  unfold insert_elems, upHeap.
  apply upHeap_loop_top.
  - lia.
  - rewrite length_app. simpl. lia.
  - unfold get. rewrite lookup_app_r by lia. by rewrite Nat.sub_diag.
  - intros y Hy. apply elem_of_app in Hy as [Hy|Hy]; [by apply Hall|].
    apply list_elem_of_singleton in Hy as ->. rewrite (cmp_refl _ Hv). lia.
Qed.

Lemma Insert_top_to_root_witness :
  wf [[1; 3; 2; 0]%Z] (mkHeap (mkSlice 0 3) cmp_min) /\ cmp_valid cmp_min /\
  (forall y, y ∈ view [[1; 3; 2; 0]%Z] (mkSlice 0 3) -> (cmp_min 1 y <= 0)%Z) /\
  let '(m', h') := Insert 0%Z [[1; 3; 2; 0]%Z] (mkHeap (mkSlice 0 3) cmp_min) 1%Z in
  get 0%Z (view m' (elements h')) 0 = 1%Z.
Proof.
  assert (W : wf [[1; 3; 2; 0]%Z] (mkHeap (mkSlice 0 3) cmp_min)) by (vm_compute; lia).
  assert (T : forall y, y ∈ view [[1; 3; 2; 0]%Z] (mkSlice 0 3) -> (cmp_min 1 y <= 0)%Z).
  { intros y Hy. vm_compute in Hy.
    repeat (apply elem_of_cons in Hy as [->|Hy]; [vm_compute; discriminate|]).
    by apply elem_of_nil in Hy. }
  split; [exact W|]. split; [exact cmp_min_valid|]. split; [exact T|].
  exact (Insert_top_to_root Z 0%Z [[1; 3; 2; 0]%Z] (mkHeap (mkSlice 0 3) cmp_min) 1%Z
           W cmp_min_valid T).
Defined.
